(** * irwin: modules/irwin/AnalysisReport.py

    A shallow embedding of the report entities, the report builder, the
    aggregation engine ([GameReportStore]) and the BSON handlers of
    [AnalysisReport.py], followed by the properties of the specification
    that were checked against it.

    Conventions of the embedding.
    - Python [int] is [Z]; a Python value that may be [None] is an [option].
    - A Python [float] that only carries a number given from outside (the
      percentile [p], the engine's evaluations) is an exact rational [Q],
      rounding left aside; the default [p = 0.15] is [3 # 20].
    - A [numpy.float64] computed by [np.average] / [np.std] is [npfloat]:
      [NaN] or an idealised real number.
    - A raised exception is [Raise e] in the [result] monad.
    - [self.gameReports] is a mutable list that [topGames] sorts in place, so
      the methods of [GameReportStore] thread that list as state. *)

From Stdlib Require Import ZArith QArith Qround Reals Lra Lia Ascii.
From Stdlib Require Lqa.
From stdpp Require Import gmap strings list fin_maps sorting.

Set Default Proof Using "Type".
Set Warnings "-register-all".

(** ** Exceptions *)

Inductive exn := IndexError | ValueError | TypeError | KeyError.

Inductive result (A : Type) :=
  | Ok (a : A)
  | Raise (e : exn).
Arguments Ok {A} a.
Arguments Raise {A} e.

Definition rbind {A B} (m : result A) (k : A → result B) : result B :=
  match m with
  | Ok a => k a
  | Raise e => Raise e
  end.

Notation "x ↢ m ; k" := (rbind m (λ x, k))
  (at level 20, m at level 100, k at level 200, right associativity,
   only parsing).

(** A list comprehension whose body may raise: the first exception ends it. *)
Fixpoint comprehension {A B} (f : A → result B) (l : list A) : result (list B) :=
  match l with
  | [] => Ok []
  | x :: l' => y ↢ f x; ys ↢ comprehension f l'; Ok (y :: ys)
  end.

(** [l[i]] for [i >= 0]. *)
Definition getitem {A} (l : list A) (i : nat) : result A :=
  match l !! i with
  | Some x => Ok x
  | None => Raise IndexError
  end.

(** [enumerate(l)], counting from [i]. *)
Fixpoint enumerate_from {A} (i : nat) (l : list A) : list (nat * A) :=
  match l with
  | [] => []
  | x :: l' => (i, x) :: enumerate_from (S i) l'
  end.
Definition enumerate {A} (l : list A) : list (nat * A) := enumerate_from 0 l.

(** [int(x)] on a float: truncation towards zero. *)
Definition py_int (x : Q) : Z := Z.quot (Qnum x) (Zpos (Qden x)).

(** [x in range(lo, hi)] for an integer [x]. *)
Definition in_range (x lo hi : Z) : bool := ((lo <=? x) && (x <? hi))%Z.

(** [sum(l)] on integers. *)
Definition py_sum (l : list Z) : Z := foldr Z.add 0%Z l.

(** The position that the index [k] denotes in a list of length [n]: a
    negative index counts from the end, anything outside [[-n, n)] raises. *)
Definition py_index (n : nat) (k : Z) : result nat :=
  if (0 <=? k)%Z then
    if (k <? Z.of_nat n)%Z then Ok (Z.to_nat k) else Raise IndexError
  else
    if (- Z.of_nat n <=? k)%Z then Ok (Z.to_nat (Z.of_nat n + k))
    else Raise IndexError.

(** ["%x" % n]: the hexadecimal digits of [n], here least significant first;
    the fuel bounds the number of digits. *)
Definition hex_chars : list ascii :=
  ["0"; "1"; "2"; "3"; "4"; "5"; "6"; "7";
   "8"; "9"; "a"; "b"; "c"; "d"; "e"; "f"]%char.

Definition hex_digit (d : N) : ascii := nth (N.to_nat d) hex_chars "0"%char.

Fixpoint hex_rev (fuel : nat) (n : N) : list ascii :=
  match fuel with
  | 0 => []
  | S fuel' =>
      hex_digit (n mod 16)
      :: (if (n <? 16)%N then [] else hex_rev fuel' (n / 16))
  end.

Definition hex (n : N) : list ascii :=
  reverse (hex_rev (S (N.to_nat (N.log2 n))) n).

(** ["%016x" % n]: the digits, padded with zeros on the left to 16 places. *)
Definition format_016x (n : N) : string :=
  String.string_of_list_ascii (replicate (16 - length (hex n)) "0"%char ++ hex n).

(** ** numpy floats *)

Inductive npfloat :=
  | NaN
  | Fin (r : R).

Definition fadd (a b : npfloat) : npfloat :=
  match a, b with
  | Fin x, Fin y => Fin (x + y)
  | _, _ => NaN
  end.

Definition fsub (a b : npfloat) : npfloat :=
  match a, b with
  | Fin x, Fin y => Fin (x - y)
  | _, _ => NaN
  end.

(** [b > a]; every comparison with [NaN] is false. *)
Definition fgt (b a : npfloat) : Prop :=
  match b, a with
  | Fin y, Fin x => (x < y)%R
  | _, _ => False
  end.

#[export] Instance fgt_dec b a : Decision (fgt b a).
Proof. destruct b, a; simpl; try (right; tauto). apply Rlt_dec. Defined.

(** The builtin [max(a, b)]: [a] unless [b > a]. *)
Definition py_max (a b : npfloat) : npfloat := if decide (fgt b a) then b else a.

Definition Rsum (l : list R) : R := foldr Rplus 0%R l.

Definition mean (b : list Z) : R :=
  (IZR (py_sum b) / IZR (Z.of_nat (length b)))%R.

Definition variance (b : list Z) : R :=
  (Rsum ((λ x, (IZR x - mean b) * (IZR x - mean b))%R <$> b)
   / IZR (Z.of_nat (length b)))%R.

(** [np.average(b)]: [nan] (and a warning) on an empty list. *)
Definition np_average (b : list Z) : npfloat :=
  match b with
  | [] => NaN
  | _ => Fin (mean b)
  end.

(** [np.std(b)]: the population standard deviation. *)
Definition np_std (b : list Z) : npfloat :=
  match b with
  | [] => NaN
  | _ => Fin (sqrt (variance b))
  end.

(** What a "by move" method returns: the literal [[]] of its zero case, or
    the string [json.dumps(a)], kept as the value it encodes. *)
Inductive dumped (A : Type) :=
  | zero_case
  | json_dumps (a : A).
Arguments zero_case {A}.
Arguments json_dumps {A} a.

(** ** Inputs of the report builder *)

(** Modelled from the spec: the analysed move of the external engine, which
    the source only reaches through the methods [trueRank()], [ambiguity()],
    [advantage()] and [winningChancesLoss()]; the record holds what each of
    them returns. *)
Module AnalysedMove.
Record t := mk {
  trueRank : option Z;
  ambiguity : Q;
  advantage : Q;
  winningChancesLoss : Q
}.
End AnalysedMove.

(** Modelled from the spec: the analysed game, of which the source reads the
    attributes [gameId] and [analysedMoves]. *)
Module AnalysedGame.
Record t := mk {
  gameId : string;
  analysedMoves : list AnalysedMove.t
}.
End AnalysedGame.

(** The model's output: nested sequences of numbers, read by position. *)
Inductive tensor :=
  | Num (x : Q)
  | Arr (xs : list tensor).

(** [t[i]] *)
Definition item (t : tensor) (i : nat) : result tensor :=
  match t with
  | Num _ => Raise TypeError
  | Arr xs => getitem xs i
  end.

(** [list(t)] *)
Definition to_list (t : tensor) : result (list tensor) :=
  match t with
  | Num _ => Raise TypeError
  | Arr xs => Ok xs
  end.

(** The operand of an arithmetic operation. *)
Definition number (t : tensor) : result Q :=
  match t with
  | Num x => Ok x
  | Arr _ => Raise TypeError
  end.

Definition movePredictions (gamePredictions : tensor)
  : result (list (tensor * tensor)) :=
  a ↢ item gamePredictions 1;
  a0 ↢ item a 0;
  la ↢ to_list a0;
  b ↢ item gamePredictions 2;
  b0 ↢ item b 0;
  lb ↢ to_list b0;
  Ok (zip la lb).

Definition moveActivation (movePrediction : tensor * tensor) : result Z :=
  x ↢ item movePrediction.1 0;
  x ↢ number x;
  y ↢ item movePrediction.2 0;
  y ↢ number y;
  Ok (py_int (50 * (x + y))).

(** ** Report entities *)

Module MoveReport.
Record t := mk {
  activation : Z;
  rank : option Z;
  ambiguity : Q;
  advantage : Z;
  loss : Z
}.

Definition new (analysedMove : AnalysedMove.t) (movePrediction : tensor * tensor)
  : result t :=
  activation ↢ moveActivation movePrediction;
  Ok (mk activation
        (AnalysedMove.trueRank analysedMove)
        (AnalysedMove.ambiguity analysedMove)
        (py_int (100 * AnalysedMove.advantage analysedMove))
        (py_int (100 * AnalysedMove.winningChancesLoss analysedMove))).
End MoveReport.

Module GameReport.
Record t := mk {
  id : string;
  reportId : string;
  gameId : string;
  activation : Z;
  moves : list MoveReport.t
}.

(** [zip] stops at the end of the shorter of its two arguments. *)
Definition new (analysedGame : AnalysedGame.t) (gameActivation : Z)
    (gamePredictions : tensor) (reportId userId : string) : result t :=
  let gameId := AnalysedGame.gameId analysedGame in
  gp ↢ item gamePredictions 0;
  predictions ↢ movePredictions gp;
  moves ↢ comprehension (λ amp, MoveReport.new amp.1 amp.2)
            (zip (AnalysedGame.analysedMoves analysedGame) predictions);
  Ok (mk (gameId +:+ "/" +:+ reportId) reportId gameId gameActivation moves).

Definition activations (self : t) : list Z :=
  MoveReport.activation <$> moves self.

Definition ranks (subNone : option Z) (self : t) : list (option Z) :=
  (λ move, match MoveReport.rank move with
           | None => subNone
           | Some r => Some r
           end) <$> moves self.

(** [losses[-1]] raises on the empty list; [losses[-1] = 0] overwrites the
    last position. *)
Definition losses (self : t) : result (list Z) :=
  let losses := MoveReport.loss <$> moves self in
  match last losses with
  | None => Raise IndexError
  | Some x =>
      if (50 <? x)%Z
      then Ok (<[pred (length losses) := 0%Z]> losses)
      else Ok losses
  end.

(** [int(self.activation/10)] *)
Definition colorIndex (self : t) : Z :=
  py_int (inject_Z (activation self) / 10).

(** [[i+1 for i in range(len(self.moves))]] *)
Definition moveNumbers (self : t) : list Z :=
  (λ i, Z.of_nat i + 1)%Z <$> seq 0 (length (moves self)).

(** The loop of [binnedActivations]: [bins[int(move.activation/10)] += 1]
    for each move in turn. *)
Fixpoint bin_moves (moves : list MoveReport.t) (bins : list Z)
  : result (list Z) :=
  match moves with
  | [] => Ok bins
  | move :: moves' =>
      i ↢ py_index (length bins)
            (py_int (inject_Z (MoveReport.activation move) / 10));
      bin_moves moves' (alter Z.succ i bins)
  end.

Definition binnedActivations (self : t) : result (list Z) :=
  bins ↢ bin_moves (moves self) (replicate 10 0%Z);
  Ok (reverse bins).
End GameReport.

(** A player report. [date] is the creation time as a time stamp. *)
Module PlayerReport.
Record t := mk {
  id : string;
  userId : string;
  owner : string;
  activation : Q;
  date : Z
}.

(** [random.getrandbits(64)] and [datetime.now()] are read from outside:
    [randbits] is the random number drawn, [now] the clock. *)
Definition new (randbits : N) (now : Z) (userId owner : string)
    (activation : Q) : t :=
  let reportId := format_016x randbits in
  mk reportId userId owner activation now.
End PlayerReport.

(** ** Aggregation engine *)

Module GameReportStore.

(** A method of the store: it may raise, and it leaves the list object held
    in [self.gameReports] in a new state ([topGames] sorts it in place). *)
Definition method (X : Type) : Type :=
  list GameReport.t → result X * list GameReport.t.

Definition ret {X} (x : X) : method X := λ gameReports, (Ok x, gameReports).

Definition bind {X Y} (m : method X) (k : X → method Y) : method Y :=
  λ gameReports,
    match m gameReports with
    | (Ok x, gameReports') => k x gameReports'
    | (Raise e, gameReports') => (Raise e, gameReports')
    end.

(** A call of a static method or of a method of another object. *)
Definition call {X} (r : result X) : method X := λ gameReports, (r, gameReports).

(** Reading the attribute [self.gameReports]. *)
Definition self_gameReports : method (list GameReport.t) :=
  λ gameReports, (Ok gameReports, gameReports).

Notation "x ⇐ m ; k" := (bind m (λ x, k))
  (at level 20, m at level 100, k at level 200, right associativity,
   only parsing).

(** [list.sort(key=lambda obj: -obj.activation)]: ascending in the key and
    stable, which fixes the result; insertion from the right keeps an
    element in front of the later elements of equal key. *)
Definition sort_key (obj : GameReport.t) : Z := (- GameReport.activation obj)%Z.

Fixpoint insert_by_key (obj : GameReport.t) (l : list GameReport.t)
  : list GameReport.t :=
  match l with
  | [] => [obj]
  | x :: l' =>
      if (sort_key obj <=? sort_key x)%Z
      then obj :: x :: l'
      else x :: insert_by_key obj l'
  end.

Definition list_sort (l : list GameReport.t) : list GameReport.t :=
  foldr insert_by_key [] l.

(** The condition of the comprehension in [topGames]. *)
Definition kept (p : Q) (n : nat) (ig : nat * GameReport.t) : bool :=
  Qle_bool (inject_Z (Z.of_nat ig.1)) (p * inject_Z (Z.of_nat n))
  || (90 <=? GameReport.activation ig.2)%Z.

Definition topGames (p : Q) : method (list GameReport.t) :=
  λ gameReports,
    let gameReports := list_sort gameReports in
    (Ok ((List.filter (kept p (length gameReports)) (enumerate gameReports)).*2),
     gameReports).

Definition longestGame : method nat :=
  gameReports ⇐ self_gameReports;
  if decide (length gameReports = 0) then ret 0
  else ret (max_list ((λ gameReport, length (GameReport.moves gameReport))
                        <$> gameReports)).

(** [self.topGames() if top else self.gameReports] *)
Definition selected (top : bool) : method (list GameReport.t) :=
  if top then topGames (3 # 20) else self_gameReports.

Definition losses (top : bool) : method (list (list Z)) :=
  gameReports ⇐ selected top;
  call (comprehension GameReport.losses gameReports).

Definition ranks (subNone : option Z) (top : bool)
  : method (list (list (option Z))) :=
  gameReports ⇐ selected top;
  ret (GameReport.ranks subNone <$> gameReports).

(** One pass of the inner comprehension of [zipLOL] over the indices [idx]:
    [l[i]] is read first; an [IndexError] (from [l[i]] or [bins[i]]) leaves
    the comprehension, is caught, and the bins keep what was appended. *)
Fixpoint zip_row {A} (l : list (option A)) (idx : list nat)
    (bins : list (list A)) : list (list A) :=
  match idx with
  | [] => bins
  | i :: idx' =>
      match l !! i with
      | None => bins
      | Some None => zip_row l idx' bins
      | Some (Some v) =>
          match bins !! i with
          | None => bins
          | Some b => zip_row l idx' (<[i := b ++ [v]]> bins)
          end
      end
  end.

(** [max([])] raises [ValueError]. *)
Definition zipLOL {A} (lol : list (list (option A))) : result (list (list A)) :=
  match lol with
  | [] => Raise ValueError
  | _ =>
      let longest := max_list (length <$> lol) in
      let bins := replicate longest [] in
      Ok (foldl (λ bins l, zip_row l (seq 0 longest) bins) bins lol)
  end.

Definition zipAvgLOL (lol : list (list (option Z))) : result (list npfloat) :=
  bins ↢ zipLOL lol; Ok (np_average <$> bins).

Definition zipStdLOL (lol : list (list (option Z))) : result (list npfloat) :=
  bins ↢ zipLOL lol; Ok (np_std <$> bins).

Record bracket := mk_bracket {
  top : list npfloat;
  bottom : list npfloat
}.

Definition stdBracket (lol : list (list (option Z))) (lowerLimit : R)
  : result bracket :=
  stds ↢ zipStdLOL lol;
  avgs ↢ zipAvgLOL lol;
  top ↢ comprehension
          (λ '(i, avg), std ↢ getitem stds i; Ok (fadd avg std))
          (enumerate avgs);
  bottom ↢ comprehension
          (λ '(i, avg),
             std ↢ getitem stds i; Ok (py_max (fsub avg std) (Fin lowerLimit)))
          (enumerate avgs);
  Ok (mk_bracket top bottom).

(** A list of integers seen as a list of values none of which is [None]. *)
Definition values (lol : list (list Z)) : list (list (option Z)) :=
  (λ l : list Z, Some <$> l) <$> lol.

Definition averageLossByMove (top : bool) : method (dumped (list npfloat)) :=
  longest ⇐ longestGame;
  if decide (longest = 0) then ret zero_case
  else
    lol ⇐ losses top;
    avgs ⇐ call (zipAvgLOL (values lol));
    ret (json_dumps avgs).

Definition averageRankByMove (top : bool) : method (dumped (list npfloat)) :=
  longest ⇐ longestGame;
  if decide (longest = 0) then ret zero_case
  else
    lol ⇐ ranks (Some 6%Z) top;
    avgs ⇐ call (zipAvgLOL lol);
    ret (json_dumps avgs).

Definition stdBracketLossByMove (top : bool) : method (dumped bracket) :=
  longest ⇐ longestGame;
  if decide (longest = 0) then ret zero_case
  else
    lol ⇐ losses top;
    br ⇐ call (stdBracket (values lol) 0);
    ret (json_dumps br).

Definition stdBracketRankByMove (top : bool) : method (dumped bracket) :=
  longest ⇐ longestGame;
  if decide (longest = 0) then ret zero_case
  else
    lol ⇐ ranks (Some 6%Z) top;
    br ⇐ call (stdBracket lol 1);
    ret (json_dumps br).

(** [range(0, 100, 10)] *)
Definition decile_starts : list Z := (λ k, 10 * Z.of_nat k)%Z <$> seq 0 10.

(** [[sum([int(x in range(i, i+10)) for x in xs]) for i in range(0, 100, 10)][::-1]] *)
Definition histogram (xs : list Z) : list Z :=
  reverse ((λ i, py_sum ((λ x, Z.b2z (in_range x i (i + 10))) <$> xs))
             <$> decile_starts).

Definition binnedActivations (top : bool) : method (dumped (list Z)) :=
  gameReports ⇐ selected top;
  ret (json_dumps (histogram (GameReport.activation <$> gameReports))).

(** [reduce(operator.concat, ls)] without an initial value: [TypeError] on
    the empty sequence. *)
Definition reduce_concat {A} (ls : list (list A)) : result (list A) :=
  match ls with
  | [] => Raise TypeError
  | l :: ls' => Ok (foldl app l ls')
  end.

Definition binnedMoveActivations (top : bool) : method (dumped (list Z)) :=
  gameReports ⇐ selected top;
  moveActivations ⇐ call (reduce_concat (GameReport.activations <$> gameReports));
  ret (json_dumps (histogram moveActivations)).

Definition activations (top : bool) : method (list Z) :=
  gameReports ⇐ selected top;
  ret (foldl (λ activations gr, activations ++ GameReport.activations gr)
         [] gameReports).

(** [GameReportStore.new]: sorts the list it is given, in place, and keeps it. *)
Definition new (gameReports : list GameReport.t) : list GameReport.t :=
  list_sort gameReports.

End GameReportStore.

(** ** Serialization adapters *)

(** The persisted representation: a document is a dictionary from field
    names to values. *)
Inductive bson :=
  | BNull
  | BInt (z : Z)
  | BNum (x : Q)
  | BStr (s : string)
  | BList (l : list bson)
  | BDoc (d : gmap string bson).

(** [bson[key]] *)
Definition field (d : gmap string bson) (key : string) : result bson :=
  match d !! key with
  | Some v => Ok v
  | None => Raise KeyError
  end.

(** The records of the embedding are typed, those of the source are not: a
    stored value of another type than the field it is read into has no
    record in the model, which answers [TypeError] at that point. *)
Definition as_int (v : bson) : result Z :=
  match v with BInt z => Ok z | _ => Raise TypeError end.
Definition as_rank (v : bson) : result (option Z) :=
  match v with BNull => Ok None | BInt z => Ok (Some z) | _ => Raise TypeError end.
Definition as_num (v : bson) : result Q :=
  match v with BNum x => Ok x | _ => Raise TypeError end.
Definition as_str (v : bson) : result string :=
  match v with BStr s => Ok s | _ => Raise TypeError end.
Definition as_list (v : bson) : result (list bson) :=
  match v with BList l => Ok l | _ => Raise TypeError end.
Definition as_doc (v : bson) : result (gmap string bson) :=
  match v with BDoc d => Ok d | _ => Raise TypeError end.

Definition of_rank (r : option Z) : bson :=
  match r with None => BNull | Some z => BInt z end.

Module MoveReportBSONHandler.
Definition reads (bson : gmap string bson) : result MoveReport.t :=
  activation ↢ rbind (field bson "a") as_int;
  rank ↢ rbind (field bson "r") as_rank;
  ambiguity ↢ rbind (field bson "m") as_num;
  advantage ↢ rbind (field bson "o") as_int;
  loss ↢ rbind (field bson "l") as_int;
  Ok (MoveReport.mk activation rank ambiguity advantage loss).

Definition writes (moveReport : MoveReport.t) : gmap string bson :=
  <["a" := BInt (MoveReport.activation moveReport)]>
  (<["r" := of_rank (MoveReport.rank moveReport)]>
  (<["m" := BNum (MoveReport.ambiguity moveReport)]>
  (<["o" := BInt (MoveReport.advantage moveReport)]>
  (<["l" := BInt (MoveReport.loss moveReport)]> ∅)))).
End MoveReportBSONHandler.

Module GameReportBSONHandler.
Definition reads (bson : gmap string bson) : result GameReport.t :=
  id ↢ rbind (field bson "_id") as_str;
  reportId ↢ rbind (field bson "reportId") as_str;
  gameId ↢ rbind (field bson "gameId") as_str;
  activation ↢ rbind (field bson "activation") as_int;
  mBsons ↢ rbind (field bson "moves") as_list;
  moves ↢ comprehension (λ mBson, rbind (as_doc mBson) MoveReportBSONHandler.reads)
            mBsons;
  Ok (GameReport.mk id reportId gameId activation moves).

Definition writes (gameReport : GameReport.t) : gmap string bson :=
  <["_id" := BStr (GameReport.id gameReport)]>
  (<["reportId" := BStr (GameReport.reportId gameReport)]>
  (<["gameId" := BStr (GameReport.gameId gameReport)]>
  (<["activation" := BInt (GameReport.activation gameReport)]>
  (<["moves" := BList ((λ move, BDoc (MoveReportBSONHandler.writes move))
                         <$> GameReport.moves gameReport)]> ∅)))).
End GameReportBSONHandler.

Module PlayerReportBSONHandler.
Definition reads (bson : gmap string bson) : result PlayerReport.t :=
  id ↢ rbind (field bson "_id") as_str;
  userId ↢ rbind (field bson "userId") as_str;
  owner ↢ rbind (field bson "owner") as_str;
  activation ↢ rbind (field bson "activation") as_num;
  date ↢ rbind (field bson "date") as_int;
  Ok (PlayerReport.mk id userId owner activation date).

Definition writes (playerReport : PlayerReport.t) : gmap string bson :=
  <["_id" := BStr (PlayerReport.id playerReport)]>
  (<["userId" := BStr (PlayerReport.userId playerReport)]>
  (<["owner" := BStr (PlayerReport.owner playerReport)]>
  (<["activation" := BNum (PlayerReport.activation playerReport)]>
  (<["date" := BInt (PlayerReport.date playerReport)]> ∅)))).
End PlayerReportBSONHandler.

(** ** Report dictionaries *)

(** The [reportDict] methods of the three entities, which build the
    dictionaries handed to [json.dumps]; they are stated here, after the
    type of the values a dictionary holds. *)
Definition MoveReport_reportDict (self : MoveReport.t) : gmap string bson :=
  <["a" := BInt (MoveReport.activation self)]>
  (<["r" := of_rank (MoveReport.rank self)]>
  (<["m" := BNum (MoveReport.ambiguity self)]>
  (<["o" := BInt (MoveReport.advantage self)]>
  (<["l" := BInt (MoveReport.loss self)]> ∅)))).

Definition GameReport_reportDict (self : GameReport.t) : gmap string bson :=
  <["gameId" := BStr (GameReport.gameId self)]>
  (<["activation" := BInt (GameReport.activation self)]>
  (<["moves" := BList ((λ move, BDoc (MoveReport_reportDict move))
                         <$> GameReport.moves self)]> ∅)).

Definition PlayerReport_reportDict (self : PlayerReport.t)
    (gameReports : list GameReport.t) : gmap string bson :=
  <["userId" := BStr (PlayerReport.userId self)]>
  (<["owner" := BStr (PlayerReport.owner self)]>
  (<["activation" := BInt (py_int (PlayerReport.activation self))]>
  (<["games" := BList ((λ gameReport, BDoc (GameReport_reportDict gameReport))
                         <$> gameReports)]> ∅))).

(** ** The stores *)

(** Modelled from the spec: the collection of the persistent store, which is
    not code of this repository. Documents are keyed by their ["_id"];
    [find_one] with the filter [{'_id': id}] returns the document of that id
    or [None]; [update_one] with that filter, [{'$set': fields}] and
    [upsert=True] sets the given fields in the document of that id, which it
    creates from the filter when there is none. *)
Definition find_one (coll : gmap string (gmap string bson)) (id : string)
  : option (gmap string bson) :=
  coll !! id.

Definition update_one (coll : gmap string (gmap string bson)) (id : string)
    (fields : gmap string bson) : gmap string (gmap string bson) :=
  match coll !! id with
  | Some doc => <[id := fields ∪ doc]> coll
  | None => <[id := fields ∪ {["_id" := BStr id]}]> coll
  end.

Module GameReportDB.
Definition byId (gameReportColl : gmap string (gmap string bson)) (id : string)
  : result (option GameReport.t) :=
  match find_one gameReportColl id with
  | None => Ok None
  | Some bson => g ↢ GameReportBSONHandler.reads bson; Ok (Some g)
  end.

Definition write (gameReport : GameReport.t)
    (gameReportColl : gmap string (gmap string bson))
  : gmap string (gmap string bson) :=
  update_one gameReportColl (GameReport.id gameReport)
    (GameReportBSONHandler.writes gameReport).

Definition writeMany (gameReports : list GameReport.t)
    (gameReportColl : gmap string (gmap string bson))
  : gmap string (gmap string bson) :=
  foldl (λ coll gameReport, write gameReport coll) gameReportColl gameReports.
End GameReportDB.

Module PlayerReportDB.
Definition byId (playerReportColl : gmap string (gmap string bson))
    (reportId : string) : result (option PlayerReport.t) :=
  match find_one playerReportColl reportId with
  | None => Ok None
  | Some bson => r ↢ PlayerReportBSONHandler.reads bson; Ok (Some r)
  end.

Definition write (playerReport : PlayerReport.t)
    (playerReportColl : gmap string (gmap string bson))
  : gmap string (gmap string bson) :=
  update_one playerReportColl (PlayerReport.id playerReport)
    (PlayerReportBSONHandler.writes playerReport).
End PlayerReportDB.

(** ** Notions of the specification *)

(** Descending by activation. *)
Definition descending (a b : GameReport.t) : Prop :=
  (GameReport.activation b ≤ GameReport.activation a)%Z.

(** [activation >= 90] *)
Definition outlier (g : GameReport.t) : bool :=
  (90 <=? GameReport.activation g)%Z.

(** The games at the first [k] positions of [l], together with the outliers
    at the later positions, in the order of [l]. *)
Definition first_or_outlier (k : nat) (l : list GameReport.t)
  : list GameReport.t :=
  take k l ++ List.filter outlier (drop k l).


(** The number of positions [i] with [i <= p * N]. *)
Definition cutoff (p : Q) (N : nat) : nat :=
  Z.to_nat (Qfloor (p * inject_Z (Z.of_nat N)) + 1).

(** The value a sequence contributes to column [i]: its entry at index [i],
    when it has one and the entry is not [None]. *)
Definition entry {A} (i : nat) (l : list (option A)) : option A :=
  match l !! i with
  | Some (Some v) => Some v
  | _ => None
  end.

(** Column [i]: the contributions of the sequences, in their order. *)
Definition column {A} (i : nat) (lol : list (list (option A))) : list A :=
  omap (entry i) lol.

(** Column [i] in the words of the specification: the value at index [i] of
    every sequence whose length is [> i]. *)
Definition column_spec {A} (i : nat) (lol : list (list (option A)))
  : list (option A) :=
  omap (λ l, l !! i) lol.

(** What the specification says of the transpose: one column per index
    below the longest length, holding the values of [column_spec]. *)
Definition zipLOL_spec {A} (lol : list (list (option A)))
    (bins : list (list A)) : Prop :=
  length bins = max_list (length <$> lol)
  ∧ ∀ i, i < length bins →
      (fmap (M := list) Some) <$> bins !! i = Some (column_spec i lol).

(** The number of values [x] with [lo <= x < hi]. *)
Definition count_in (lo hi : Z) (xs : list Z) : Z :=
  Z.of_nat (length (filter (λ x, lo ≤ x < hi)%Z xs)).

(** [int(x in range(lo, hi))] *)
Definition hit (lo hi x : Z) : Z := Z.b2z (in_range x lo hi).

(** One entry of the histogram, before the reversal. *)
Definition bucket (lo : Z) (xs : list Z) : Z :=
  py_sum (hit lo (lo + 10) <$> xs).

(** [top] and [bottom] of the band of one column. *)
Definition band_top (c : list Z) : npfloat := fadd (np_average c) (np_std c).
Definition band_bottom (lowerLimit : R) (c : list Z) : npfloat :=
  py_max (fsub (np_average c) (np_std c)) (Fin lowerLimit).

(** [x < y]: false when [x] is [nan]. *)
Definition below (x : npfloat) (y : R) : Prop := fgt (Fin y) x.

(** The output of the model for a game whose two per-move heads hold the
    numbers [pa] and [pb]: [gamePredictions[0][1][0][k][0] = pa[k]] and
    [gamePredictions[0][2][0][k][0] = pb[k]]. *)
Definition predictions_tensor (pa pb : list Q) : tensor :=
  Arr [Arr [Arr [];
            Arr [Arr ((λ x, Arr [Num x]) <$> pa)];
            Arr [Arr ((λ x, Arr [Num x]) <$> pb)]]].

(** The move record built from an analysed move and its two predictions. *)
Definition built_move (am : AnalysedMove.t) (ab : Q * Q) : MoveReport.t :=
  MoveReport.mk (py_int (50 * (ab.1 + ab.2)))
    (AnalysedMove.trueRank am) (AnalysedMove.ambiguity am)
    (py_int (100 * AnalysedMove.advantage am))
    (py_int (100 * AnalysedMove.winningChancesLoss am)).

(** A method that only reorders the games, and one that leaves the list as
    it found it. *)
Definition keeps_games {X} (m : GameReportStore.method X) : Prop :=
  ∀ gameReports, (m gameReports).2 ≡ₚ gameReports.
Definition read_only {X} (m : GameReportStore.method X) : Prop :=
  ∀ gameReports, (m gameReports).2 = gameReports.

(** A float that is a number. *)
Definition finite (x : npfloat) : Prop := x ≠ NaN.

(** The value of a hexadecimal digit and of a list of digits, least
    significant first. *)
Definition digit_val (c : ascii) : N :=
  match list_find (λ x, x = c) hex_chars with
  | Some (i, _) => N.of_nat i
  | None => 0
  end.

Definition hex_val_rev (l : list ascii) : N :=
  foldr (λ c acc, digit_val c + 16 * acc)%N 0%N l.

(** The value that a string of hexadecimal digits denotes. *)
Definition hex_val (s : string) : N :=
  hex_val_rev (reverse (String.list_ascii_of_string s)).

(** The fields of a persisted game report. *)
Definition game_keys : list string :=
  ["_id"; "reportId"; "gameId"; "activation"; "moves"].

(** ** Sample data *)

Definition sample_move (activation loss : Z) : MoveReport.t :=
  MoveReport.mk activation (Some 1%Z) (1 # 2) 0 loss.

(** A game of report ["r"] with the given game id, activation and moves. *)
Definition sample_game (gameId : string) (activation : Z)
    (moves : list MoveReport.t) : GameReport.t :=
  GameReport.mk (gameId +:+ "/r") "r" gameId activation moves.

Definition game10 : GameReport.t := sample_game "a" 10 [sample_move 12 3].
Definition game5 : GameReport.t := sample_game "b" 5 [sample_move 7 4].
Definition game95 : GameReport.t := sample_game "c" 95 [sample_move 97 0].

(** The rank series of two games of two moves each, as [ranks()] returns
    them with its default [subNone=None]: the second move of the first game
    has no rank. *)
Definition ranks_with_absent : list (list (option Z)) :=
  [[Some 1%Z; None]; [Some 2%Z; Some 3%Z]].

(** Two games whose move losses are [10, 20, 99] and [5, 15]. *)
Definition game_three_moves : GameReport.t :=
  sample_game "d" 40 [sample_move 30 10; sample_move 35 20; sample_move 50 99].
Definition game_two_moves : GameReport.t :=
  sample_game "e" 20 [sample_move 10 5; sample_move 25 15].

(** A game of the degenerate case: no move was analysed. *)
Definition game_no_moves : GameReport.t := sample_game "f" 0 [].

Definition game100 : GameReport.t := sample_game "g" 100 [sample_move 99 0].

(** An analysed game of two moves, and predictions for one move only. *)
Definition analysed_two_moves : AnalysedGame.t :=
  AnalysedGame.mk "h"
    [AnalysedMove.mk (Some 1%Z) (1 # 2) (3 # 10) (1 # 100);
     AnalysedMove.mk None (1 # 4) (1 # 10) (1 # 5)].

(** * Properties *)

(** Evaluates the closed integers under [IZR]. *)
Ltac eval_IZR :=
  repeat match goal with
  | |- context [IZR ?z] =>
      let z' := eval vm_compute in z in progress change z with z'
  end.

(** ** The in-place sort *)

Section sorting.
Import GameReportStore.

Lemma insert_by_key_perm obj l : insert_by_key obj l ≡ₚ obj :: l.
Proof.
  induction l as [|x l IH]; simpl; [done|].
  destruct (sort_key obj <=? sort_key x)%Z; [done|].
  rewrite IH. apply Permutation_swap.
Qed.

Lemma list_sort_perm l : list_sort l ≡ₚ l.
Proof.
  induction l as [|x l IH]; simpl; [done|].
  by rewrite insert_by_key_perm, IH.
Qed.

Lemma list_sort_length l : length (list_sort l) = length l.
Proof. by rewrite list_sort_perm. Qed.

Lemma insert_by_key_sorted obj l :
  StronglySorted descending l → StronglySorted descending (insert_by_key obj l).
Proof.
  induction 1 as [|x l Hl IH Hx]; simpl.
  - repeat constructor.
  - destruct (Z.leb_spec (sort_key obj) (sort_key x)) as [Hle|Hlt].
    + constructor; [by constructor|].
      constructor; [unfold descending, sort_key in *; lia|].
      eapply Forall_impl; [exact Hx|].
      unfold descending, sort_key in *. intros y ?. lia.
    + constructor; [done|].
      rewrite insert_by_key_perm. constructor; [|done].
      unfold descending, sort_key in *. lia.
Qed.

Lemma list_sort_sorted l : StronglySorted descending (list_sort l).
Proof.
  induction l as [|x l IH]; simpl; [constructor|].
  by apply insert_by_key_sorted.
Qed.

(** Sorting a sorted list changes nothing: the sort of [topGames] is the
    identity on a store made by [new]. *)
Lemma list_sort_id l : StronglySorted descending l → list_sort l = l.
Proof.
  induction 1 as [|x l Hl IH Hx]; simpl; [done|].
  rewrite IH. destruct Hx as [|y l Hy _]; simpl; [done|].
  unfold descending, sort_key in *.
  destruct (Z.leb_spec (- GameReport.activation x) (- GameReport.activation y));
    [done|lia].
Qed.

End sorting.

(** ** Top-subset selection *)

Section topGames.
Import GameReportStore.

Lemma index_le_cutoff (q : Q) (i : nat) :
  Qle_bool (inject_Z (Z.of_nat i)) q = true ↔ i < Z.to_nat (Qfloor q + 1).
Proof.
  rewrite Qle_bool_iff. split.
  - intros Hle.
    assert (Z.of_nat i < Qfloor q + 1)%Z; [|lia].
    rewrite Zlt_Qlt. eapply Qle_lt_trans; [exact Hle|apply Qlt_floor].
  - intros Hlt. assert (Z.of_nat i ≤ Qfloor q)%Z as Hz by lia.
    rewrite Zle_Qle in Hz. eapply Qle_trans; [exact Hz|apply Qfloor_le].
Qed.

Lemma kept_cutoff p N i g :
  kept p N (i, g) = bool_decide (i < cutoff p N) || outlier g.
Proof.
  unfold kept, cutoff, outlier. simpl. f_equal.
  apply eq_true_iff_eq. rewrite index_le_cutoff. by rewrite bool_decide_eq_true.
Qed.

Lemma comprehension_from p N i l :
  (List.filter (kept p N) (enumerate_from i l)).*2
  = first_or_outlier (cutoff p N - i) l.
Proof.
  unfold first_or_outlier.
  revert i. induction l as [|g l IH]; intros i.
  - by rewrite take_nil, drop_nil.
  - cbn [enumerate_from List.filter]. rewrite kept_cutoff.
    destruct (decide (i < cutoff p N)) as [Hlt|Hge].
    + rewrite bool_decide_eq_true_2 by done. cbn [orb].
      rewrite fmap_cons, IH.
      replace (cutoff p N - i) with (S (cutoff p N - S i)) by lia. done.
    + rewrite bool_decide_eq_false_2 by done. cbn [orb].
      specialize (IH (S i)).
      replace (cutoff p N - S i) with 0 in IH by lia.
      replace (cutoff p N - i) with 0 by lia.
      rewrite take_0, drop_0 in *. cbn [app List.filter] in *.
      destruct (outlier g); by rewrite ?fmap_cons, IH.
Qed.

(** What [topGames] returns and the state it leaves. *)
Lemma topGames_eq p gameReports :
  topGames p gameReports
  = (Ok (first_or_outlier (cutoff p (length gameReports)) (list_sort gameReports)),
     list_sort gameReports).
Proof.
  unfold topGames, enumerate. rewrite comprehension_from, list_sort_length.
  by rewrite Nat.sub_0_r.
Qed.



(** C6: every game of the collection whose activation is [>= 90] is in
    [topGames(p)], whatever [p] is. *)
Theorem topGames_includes_outliers (p : Q) (gameReports : list GameReport.t)
    (g : GameReport.t) :
  g ∈ gameReports →
  (90 ≤ GameReport.activation g)%Z →
  ∃ top, (topGames p gameReports).1 = Ok top ∧ g ∈ top.
Proof.
  intros Hin Hact. rewrite topGames_eq. eexists; split; [done|].
  rewrite <- list_sort_perm in Hin.
  rewrite <- (take_drop (cutoff p (length gameReports))) in Hin.
  unfold first_or_outlier. apply elem_of_app in Hin as [Hin|Hin].
  - apply elem_of_app. by left.
  - apply elem_of_app. right.
    apply list_elem_of_In, filter_In. split; [by apply list_elem_of_In|].
    unfold outlier. by apply Z.leb_le.
Qed.

Lemma topGames_includes_outliers_witness :
  ∃ top, (topGames 0 [game10; game95]).1 = Ok top ∧ game95 ∈ top.
Proof.
  apply (topGames_includes_outliers 0 [game10; game95] game95).
  - apply list_elem_of_further, list_elem_of_here.
  - vm_compute. discriminate.
Defined.

End topGames.

(** ** Ragged transpose *)

Section zipLOL.
Import GameReportStore.
Context {A : Type}.
Implicit Types (l : list (option A)) (lol : list (list (option A))).
Implicit Types (bins : list (list A)).

Lemma entry_ge i l : length l ≤ i → entry i l = None.
Proof. intros Hi. unfold entry. by rewrite lookup_ge_None_2. Qed.

Lemma zip_row_length l idx bins : length (zip_row l idx bins) = length bins.
Proof.
  revert bins. induction idx as [|i idx IH]; intros bins; simpl; [done|].
  destruct (l !! i) as [[v|]|]; [|done..].
  destruct (bins !! i); [|done]. by rewrite IH, length_insert.
Qed.

(** One sequence extends bin [i] by its contribution to column [i]: leaving
    the comprehension at the first index out of range loses nothing, since
    the later indices are out of range too. *)
Lemma zip_row_lookup l j m bins i :
  j + m ≤ length bins →
  zip_row l (seq j m) bins !! i
  = if decide (j ≤ i < j + m)
    then (λ b, b ++ option_list (entry i l)) <$> bins !! i
    else bins !! i.
Proof.
  revert j bins. induction m as [|m IH]; intros j bins Hlen; simpl.
  { case_decide; [lia|done]. }
  destruct (l !! j) as [[v|]|] eqn:Hj.
  - destruct (lookup_lt_is_Some_2 bins j) as [b Hb]; [lia|]. rewrite Hb.
    rewrite IH by (rewrite length_insert; lia).
    destruct (decide (i = j)) as [->|Hne].
    + rewrite list_lookup_insert_eq by lia.
      rewrite decide_False by lia. rewrite decide_True by lia.
      rewrite Hb. unfold entry. by rewrite Hj.
    + rewrite list_lookup_insert_ne by done.
      repeat case_decide; try lia; done.
  - rewrite IH by lia. destruct (decide (i = j)) as [->|Hne].
    + rewrite decide_False by lia. rewrite decide_True by lia.
      unfold entry. rewrite Hj. simpl.
      destruct (bins !! j); simpl; by rewrite ?app_nil_r.
    + repeat case_decide; try lia; done.
  - apply lookup_ge_None_1 in Hj. case_decide; [|done].
    rewrite entry_ge by lia. simpl.
    destruct (bins !! i); simpl; by rewrite ?app_nil_r.
Qed.

Lemma foldl_zip_row_length n lol bins :
  length (foldl (λ bins l, zip_row l (seq 0 n) bins) bins lol) = length bins.
Proof.
  revert bins. induction lol as [|l lol IH]; intros bins; simpl; [done|].
  by rewrite IH, zip_row_length.
Qed.

Lemma foldl_zip_row_lookup n lol bins i :
  n ≤ length bins → i < n →
  foldl (λ bins l, zip_row l (seq 0 n) bins) bins lol !! i
  = (λ b, b ++ column i lol) <$> bins !! i.
Proof.
  intros Hn Hi. revert bins Hn.
  induction lol as [|l lol IH]; intros bins Hn; simpl.
  - destruct (bins !! i); simpl; by rewrite ?app_nil_r.
  - rewrite IH by (by rewrite zip_row_length).
    rewrite zip_row_lookup by done. rewrite decide_True by lia.
    destruct (bins !! i); simpl; [|done].
    unfold column at 2. simpl. fold (column i lol).
    destruct (entry i l); simpl; by rewrite <- ?app_assoc.
Qed.

Lemma zipLOL_eq l lol :
  ∃ bins, zipLOL (l :: lol) = Ok bins
    ∧ length bins = max_list (length <$> l :: lol)
    ∧ ∀ i, i < length bins → bins !! i = Some (column i (l :: lol)).
Proof.
  unfold zipLOL. set (n := max_list _). eexists. split; [done|].
  rewrite foldl_zip_row_length, length_replicate. split; [done|].
  intros i Hi. rewrite foldl_zip_row_lookup; [|by rewrite length_replicate|done].
  by rewrite lookup_replicate_2.
Qed.

Lemma elem_of_column i lol (v : A) :
  v ∈ column i lol ↔ ∃ l, l ∈ lol ∧ l !! i = Some (Some v).
Proof.
  unfold column. rewrite list_elem_of_omap.
  split; intros (l & Hl & Hv); exists l; split; try done; unfold entry in *.
  - by destruct (l !! i) as [[?|]|]; simplify_eq.
  - by rewrite Hv.
Qed.

(** Without absent entries the columns are those of the specification. *)
Lemma column_no_None i lol :
  Forall (λ l, None ∉ l) lol → Some <$> column i lol = column_spec i lol.
Proof.
  unfold column, column_spec. induction 1 as [|l lol Hl _ IH]; [done|].
  cbn [omap list_omap]. unfold entry at 1.
  destruct (l !! i) as [[v|]|] eqn:Hi.
  - by rewrite fmap_cons, IH.
  - by apply list_elem_of_lookup_2 in Hi.
  - done.
Qed.

Lemma column_length_full i lol L :
  Forall (λ l, length l = L ∧ None ∉ l) lol → i < L →
  length (column i lol) = length lol.
Proof.
  intros Hall Hi. unfold column.
  induction Hall as [|l lol [Hlen Hl] _ IH]; [done|].
  destruct (lookup_lt_is_Some_2 l i) as [x Hx]; [lia|].
  cbn [omap list_omap]. unfold entry at 1. rewrite Hx. destruct x as [v|].
  - cbn [length]. by rewrite IH.
  - by apply list_elem_of_lookup_2 in Hx.
Qed.

Lemma max_list_all_equal (ns : list nat) L :
  ns ≠ [] → Forall (λ n, n = L) ns → max_list ns = L.
Proof.
  intros Hne Hall. apply max_list_elem_of in Hne.
  by rewrite Forall_forall in Hall; apply Hall.
Qed.

End zipLOL.

Section zipLOL_claims.
Import GameReportStore.

(** C2, as stated, fails: [zipLOL] skips the entries that are [None], so on
    the rank series of two games of two moves, one of them without a rank,
    column 1 holds one value and not the two values at index 1 of the two
    sequences of length [> 1]. *)
Lemma zipLOL_absent_counterexample :
  zipLOL ranks_with_absent = Ok [[1; 2]; [3]]%Z
  ∧ column_spec 1 ranks_with_absent = [None; Some 3%Z]
  ∧ Forall (λ l, length l = 2) ranks_with_absent
  ∧ ¬ zipLOL_spec ranks_with_absent [[1; 2]; [3]]%Z.
Proof.
  split; [reflexivity|]. split; [reflexivity|].
  split; [by repeat constructor|].
  intros [_ Hcol]. specialize (Hcol 1). simpl in Hcol.
  specialize (Hcol ltac:(lia)). discriminate.
Qed.

(** C2, amended: for every non-empty list of sequences, [zipLOL] produces one
    column per index [i] in [[0, longest)]; column [i] contains exactly, in
    the order of the sequences, the values at index [i] that are not [None]
    of the sequences whose length is [> i] (shorter sequences and absent
    entries are omitted, nothing is filled in); when no entry is [None] these
    are the columns of the specification, and for [N] equal-length sequences
    of length [L] without absent entries the output has exactly [L] columns
    of exactly [N] values each. *)
Theorem zipLOL_columns {A} (lol : list (list (option A))) :
  lol ≠ [] →
  ∃ bins, zipLOL lol = Ok bins
    ∧ length bins = max_list (length <$> lol)
    ∧ (∀ i, i < length bins → bins !! i = Some (column i lol))
    ∧ (∀ i v, v ∈ column i lol ↔ ∃ l, l ∈ lol ∧ l !! i = Some (Some v))
    ∧ (Forall (λ l, None ∉ l) lol → zipLOL_spec lol bins)
    ∧ (∀ L, Forall (λ l, length l = L ∧ None ∉ l) lol →
         length bins = L ∧ Forall (λ b, length b = length lol) bins).
Proof.
  intros Hne. destruct lol as [|l lol]; [done|].
  destruct (zipLOL_eq l lol) as (bins & Hbins & Hlen & Hcol).
  exists bins. split; [done|]. split; [done|]. split; [done|].
  split; [intros i v; apply elem_of_column|]. split.
  - intros Hno. split; [done|]. intros i Hi.
    rewrite Hcol by done. rewrite <- (column_no_None i _ Hno). done.
  - intros L Hall.
    assert (length bins = L) as HL.
    { rewrite Hlen. apply max_list_all_equal; [done|].
      apply Forall_fmap. eapply Forall_impl; [exact Hall|]. by intros ? [? _]. }
    split; [done|]. apply Forall_lookup. intros i b Hb.
    assert (i < length bins) as Hi by (by eapply lookup_lt_Some).
    rewrite Hcol in Hb by done.
    assert (b = column i (l :: lol)) as -> by congruence.
    eapply column_length_full; [exact Hall|lia].
Qed.

Lemma zipLOL_columns_witness :
  ∃ bins, zipLOL [[Some 10; Some 20; Some 0]; [Some 5; Some 15]]%Z = Ok bins
    ∧ length bins = 3
    ∧ bins !! 2 = Some [0%Z].
Proof.
  destruct (zipLOL_columns [[Some 10; Some 20; Some 0]; [Some 5; Some 15]]%Z)
    as (bins & Hbins & Hlen & Hcol & _); [discriminate|].
  exists bins. split; [exact Hbins|]. split; [exact Hlen|].
  apply Hcol. rewrite Hlen. simpl. lia.
Defined.

End zipLOL_claims.

(** ** Loss series *)

Section losses.
Import GameReportStore.

(** The correction of [GameReport.losses] on a non-empty loss list. *)
Lemma GameReport_losses_snoc g init x :
  MoveReport.loss <$> GameReport.moves g = init ++ [x] →
  GameReport.losses g = Ok (init ++ [if (50 <? x)%Z then 0%Z else x]).
Proof.
  intros Hl. unfold GameReport.losses. rewrite Hl, last_snoc.
  destruct (50 <? x)%Z; [|done].
  rewrite length_app. simpl. rewrite Nat.add_1_r. simpl.
  rewrite <- (Nat.add_0_r (length init)).
  by rewrite insert_app_r.
Qed.

Lemma GameReport_losses_nil g :
  GameReport.moves g = [] → GameReport.losses g = Raise IndexError.
Proof. intros Hm. unfold GameReport.losses. by rewrite Hm. Qed.

(** [IndexError] is the only exception of [GameReport.losses]. *)
Lemma GameReport_losses_exn g e :
  GameReport.losses g = Raise e → e = IndexError.
Proof.
  unfold GameReport.losses. destruct (last _); [|congruence].
  by destruct (50 <? _)%Z.
Qed.

Lemma comprehension_losses_raises gs g :
  g ∈ gs → GameReport.moves g = [] →
  comprehension GameReport.losses gs = Raise IndexError.
Proof.
  intros Hin Hg. induction Hin as [g gs|g g' gs _ IH]; simpl.
  - by rewrite GameReport_losses_nil.
  - destruct (GameReport.losses g') eqn:Hl; simpl.
    + by rewrite IH.
    + by apply GameReport_losses_exn in Hl as ->.
Qed.

Lemma longestGame_eq gs :
  longestGame gs
  = (Ok (max_list ((λ g, length (GameReport.moves g)) <$> gs)), gs).
Proof. unfold longestGame, bind, self_gameReports, ret. by destruct gs. Qed.

Lemma longestGame_pos gs g :
  g ∈ gs → GameReport.moves g ≠ [] →
  max_list ((λ g, length (GameReport.moves g)) <$> gs) ≠ 0.
Proof.
  intros Hin Hne.
  assert (length (GameReport.moves g)
          ≤ max_list ((λ g, length (GameReport.moves g)) <$> gs)) as Hle.
  { apply max_list_elem_of_le, list_elem_of_fmap. eauto. }
  destruct (GameReport.moves g); [done|]. simpl in Hle. lia.
Qed.

Lemma losses_two_games g1 g2 :
  MoveReport.loss <$> GameReport.moves g1 = [10; 20; 99]%Z →
  MoveReport.loss <$> GameReport.moves g2 = [5; 15]%Z →
  losses false [g1; g2] = (Ok [[10; 20; 0]; [5; 15]]%Z, [g1; g2]).
Proof.
  intros H1 H2. unfold losses, bind, selected, self_gameReports, call.
  simpl. rewrite (GameReport_losses_snoc g1 [10; 20]%Z 99%Z H1).
  by rewrite (GameReport_losses_snoc g2 [5]%Z 15%Z H2).
Qed.

(** C4: for a game with at least one move, the loss series is the per-move
    losses with a final value above 50 replaced by 0 and a final value of at
    most 50 kept; and for two games of losses [10, 20, 99] and [5, 15] the
    averages by move are 7.5, 17.5 and 0. *)
Theorem losses_final_correction (g : GameReport.t) :
  GameReport.moves g ≠ [] →
  (∃ init x,
     MoveReport.loss <$> GameReport.moves g = init ++ [x]
     ∧ GameReport.losses g = Ok (init ++ [if (50 <? x)%Z then 0%Z else x])
     ∧ losses false [g]
       = (Ok [init ++ [if (50 <? x)%Z then 0%Z else x]], [g]))
  ∧ ∀ g1 g2,
      MoveReport.loss <$> GameReport.moves g1 = [10; 20; 99]%Z →
      MoveReport.loss <$> GameReport.moves g2 = [5; 15]%Z →
      averageLossByMove false [g1; g2]
      = (Ok (json_dumps [Fin 7.5; Fin 17.5; Fin 0]), [g1; g2]).
Proof.
  intros Hne. split.
  - destruct (GameReport.moves g) as [|m ms _] eqn:Hm using rev_ind; [done|].
    exists (MoveReport.loss <$> ms), (MoveReport.loss m).
    assert (MoveReport.loss <$> GameReport.moves g
            = (MoveReport.loss <$> ms) ++ [MoveReport.loss m]) as Hl.
    { by rewrite Hm, fmap_app. }
    rewrite <- Hm. split; [done|]. split.
    + by apply GameReport_losses_snoc.
    + unfold losses, bind, selected, self_gameReports, call. simpl.
      by rewrite (GameReport_losses_snoc _ _ _ Hl).
  - intros g1 g2 H1 H2. unfold averageLossByMove, bind.
    rewrite longestGame_eq. cbn [fmap list_fmap].
    assert (length (GameReport.moves g1) = 3) as ->.
    { by rewrite <- (length_fmap MoveReport.loss), H1. }
    assert (length (GameReport.moves g2) = 2) as ->.
    { by rewrite <- (length_fmap MoveReport.loss), H2. }
    rewrite decide_False by (by vm_compute).
    rewrite (losses_two_games g1 g2 H1 H2).
    unfold call, ret, zipAvgLOL.
    change (zipLOL (values [[10; 20; 0]; [5; 15]]%Z))
      with (Ok [[10; 5]; [20; 15]; [0]]%Z).
    cbn [rbind fmap list_fmap np_average]. unfold mean.
    cbn [py_sum foldr length].
    do 2 f_equal. repeat f_equal; eval_IZR; lra.
Qed.

Lemma losses_final_correction_witness :
  (∃ init x,
     MoveReport.loss <$> GameReport.moves game_three_moves = init ++ [x]
     ∧ GameReport.losses game_three_moves
       = Ok (init ++ [if (50 <? x)%Z then 0%Z else x])
     ∧ losses false [game_three_moves]
       = (Ok [init ++ [if (50 <? x)%Z then 0%Z else x]], [game_three_moves]))
  ∧ averageLossByMove false [game_three_moves; game_two_moves]
    = (Ok (json_dumps [Fin 7.5; Fin 17.5; Fin 0]),
       [game_three_moves; game_two_moves]).
Proof.
  destruct (losses_final_correction game_three_moves) as [Hg Hex];
    [discriminate|].
  split; [exact Hg|]. apply Hex; reflexivity.
Defined.



End losses.

(** ** The zero case of the "by move" methods *)

Section zero_case.
Import GameReportStore.

(** The four guarded methods return their zero case when no game has a
    move. *)
Lemma guarded_zero_case (top : bool) (gameReports : list GameReport.t) :
  Forall (λ g, GameReport.moves g = []) gameReports →
  averageLossByMove top gameReports = (Ok zero_case, gameReports)
  ∧ averageRankByMove top gameReports = (Ok zero_case, gameReports)
  ∧ stdBracketLossByMove top gameReports = (Ok zero_case, gameReports)
  ∧ stdBracketRankByMove top gameReports = (Ok zero_case, gameReports).
Proof.
  intros Hall.
  assert (max_list ((λ g, length (GameReport.moves g)) <$> gameReports) = 0)
    as Hmax.
  { induction Hall as [|g gs Hg _ IH]; [done|].
    cbn [fmap list_fmap]. rewrite Hg. simpl. exact IH. }
  unfold averageLossByMove, averageRankByMove, stdBracketLossByMove,
    stdBracketRankByMove, bind.
  rewrite longestGame_eq, Hmax. by rewrite decide_True.
Qed.

(** C3 fails on the code for [binnedMoveActivations]: it has no zero case,
    and on the empty collection [reduce(operator.concat, [])] raises
    [TypeError], while the four other "by move" methods return [[]]. *)
Theorem binnedMoveActivations_empty_raises (top : bool) :
  binnedMoveActivations top [] = (Raise TypeError, [])
  ∧ averageLossByMove top [] = (Ok zero_case, [])
  ∧ averageRankByMove top [] = (Ok zero_case, [])
  ∧ stdBracketLossByMove top [] = (Ok zero_case, [])
  ∧ stdBracketRankByMove top [] = (Ok zero_case, []).
Proof. by destruct top. Qed.

(** On games without moves [binnedMoveActivations] returns the histogram of
    no value, ten zeros. *)
Lemma binnedMoveActivations_no_moves :
  binnedMoveActivations false [game_no_moves]
  = (Ok (json_dumps [0; 0; 0; 0; 0; 0; 0; 0; 0; 0]%Z), [game_no_moves]).
Proof. reflexivity. Qed.

End zero_case.

(** ** Decile histogram *)

Section histogram.
Import GameReportStore.

Lemma histogram_buckets xs :
  histogram xs
  = [bucket 90 xs; bucket 80 xs; bucket 70 xs; bucket 60 xs; bucket 50 xs;
     bucket 40 xs; bucket 30 xs; bucket 20 xs; bucket 10 xs; bucket 0 xs].
Proof. reflexivity. Qed.

Lemma hit_cases lo hi x :
  ((lo ≤ x < hi)%Z ∧ hit lo hi x = 1%Z) ∨ (¬ (lo ≤ x < hi)%Z ∧ hit lo hi x = 0%Z).
Proof.
  unfold hit, in_range.
  destruct (Z.leb_spec lo x), (Z.ltb_spec x hi); simpl; lia.
Qed.

Lemma bucket_count lo hi xs :
  hi = (lo + 10)%Z → bucket lo xs = count_in lo hi xs.
Proof.
  intros ->. unfold bucket, count_in. induction xs as [|x xs IH]; [done|].
  cbn [fmap list_fmap py_sum foldr]. fold (py_sum (hit lo (lo + 10) <$> xs)).
  rewrite IH, filter_cons.
  destruct (hit_cases lo (lo + 10) x) as [[Hx ->]|[Hx ->]].
  - rewrite decide_True by done. simpl length. lia.
  - rewrite decide_False by done. lia.
Qed.

Lemma count_in_deciles xs :
  (count_in 90 100 xs + count_in 80 90 xs + count_in 70 80 xs
   + count_in 60 70 xs + count_in 50 60 xs + count_in 40 50 xs
   + count_in 30 40 xs + count_in 20 30 xs + count_in 10 20 xs
   + count_in 0 10 xs = count_in 0 100 xs)%Z.
Proof.
  unfold count_in. induction xs as [|x xs IH]; [done|].
  rewrite !filter_cons.
  repeat case_decide; simpl length; lia.
Qed.

Lemma count_in_all lo hi xs :
  Forall (λ x, lo ≤ x < hi)%Z xs → count_in lo hi xs = Z.of_nat (length xs).
Proof.
  intros Hall. unfold count_in. induction Hall as [|x xs Hx _ IH]; [done|].
  rewrite filter_cons, decide_True by done. simpl length. lia.
Qed.

Lemma selected_ok top gameReports :
  ∃ games gameReports',
    selected top gameReports = (Ok games, gameReports')
    ∧ (top = false → games = gameReports).
Proof.
  destruct top; simpl.
  - rewrite topGames_eq. eexists _, _. by split.
  - eexists _, _. by split.
Qed.

(** C5, as stated, fails: the deciles are the half-open ranges
    [range(i, i + 10)] up to [range(90, 100)], so a game of activation 100,
    inside [[0, 100]], is counted in no bucket and the histogram sums to 0
    for a collection of one game. *)
Lemma binnedActivations_100_counterexample :
  (0 ≤ GameReport.activation game100 ≤ 100)%Z
  ∧ binnedActivations false [game100]
    = (Ok (json_dumps [0; 0; 0; 0; 0; 0; 0; 0; 0; 0]%Z), [game100])
  ∧ py_sum [0; 0; 0; 0; 0; 0; 0; 0; 0; 0]%Z ≠ Z.of_nat (length [game100]).
Proof. split; [by vm_compute|]. split; [reflexivity|discriminate]. Qed.

(** C5, amended: [binnedActivations] returns a list of exactly 10 integers;
    output index [k] counts the selected games whose activation is in
    [[90 - 10k, 100 - 10k)], from [[90, 100)] at index 0 down to [[0, 10)]
    at index 9; the sum is the number of games whose activation is in
    [[0, 100)], hence the number of games when every activation is an
    integer in [[0, 100)]; activations [5, 15, 25, 95] yield
    [1,0,0,0,0,0,0,1,1,1]. *)
Theorem binnedActivations_deciles (top : bool)
    (gameReports : list GameReport.t) :
  ∃ games gameReports' h,
    selected top gameReports = (Ok games, gameReports')
    ∧ (top = false → games = gameReports)
    ∧ binnedActivations top gameReports = (Ok (json_dumps h), gameReports')
    ∧ length h = 10
    ∧ (∀ k : nat, k < 10 →
         h !! k = Some (count_in (90 - 10 * Z.of_nat k) (100 - 10 * Z.of_nat k)
                          (GameReport.activation <$> games)))
    ∧ py_sum h = count_in 0 100 (GameReport.activation <$> games)
    ∧ (Forall (λ g, 0 ≤ GameReport.activation g < 100)%Z games →
         py_sum h = Z.of_nat (length games))
    ∧ ∀ gs, GameReport.activation <$> gs = [5; 15; 25; 95]%Z →
        binnedActivations false gs
        = (Ok (json_dumps [1; 0; 0; 0; 0; 0; 0; 1; 1; 1]%Z), gs).
Proof.
  destruct (selected_ok top gameReports) as (games & st & Hsel & Htop).
  exists games, st, (histogram (GameReport.activation <$> games)).
  split; [done|]. split; [done|]. split.
  { unfold binnedActivations, bind. by rewrite Hsel. }
  set (xs := GameReport.activation <$> games).
  assert (py_sum (histogram xs) = count_in 0 100 xs) as Hsum.
  { rewrite histogram_buckets, <- count_in_deciles. cbn [py_sum foldr].
    rewrite (bucket_count 90 100), (bucket_count 80 90), (bucket_count 70 80),
      (bucket_count 60 70), (bucket_count 50 60), (bucket_count 40 50),
      (bucket_count 30 40), (bucket_count 20 30), (bucket_count 10 20),
      (bucket_count 0 10) by done.
    lia. }
  split; [by rewrite histogram_buckets|]. split.
  { intros k Hk. rewrite histogram_buckets.
    do 10 (destruct k as [|k];
           [cbn [lookup list_lookup]; f_equal; by apply bucket_count|]).
    lia. }
  split; [done|]. split.
  { intros Hall. rewrite Hsum. subst xs.
    rewrite count_in_all, length_fmap; [done|]. by apply Forall_fmap. }
  intros gs Hgs. unfold binnedActivations, bind, selected, self_gameReports, ret.
  by rewrite Hgs.
Qed.

End histogram.

(** ** Standard-deviation band *)

Section stdBracket.
Import GameReportStore.

Lemma py_max_Rmax x y : py_max (Fin x) (Fin y) = Fin (Rmax x y).
Proof.
  unfold py_max, Rmax. destruct (decide _) as [Hlt|Hge], (Rle_dec x y);
    simpl in *; f_equal; lra.
Qed.

Lemma py_max_not_below a y : ¬ below (py_max a (Fin y)) y.
Proof.
  unfold below, py_max. destruct (decide (fgt (Fin y) a)) as [Hlt|Hge]; [|done].
  simpl. lra.
Qed.

(** The comprehensions of [stdBracket] never leave the range of [stds],
    which has the length of [avgs]. *)
Lemma band_comprehension {B} (f g : list Z → npfloat) (h : npfloat → npfloat → B)
    (done_ bins : list (list Z)) :
  comprehension
    (λ '(i, avg), std ↢ getitem (g <$> done_ ++ bins) i; Ok (h avg std))
    (enumerate_from (length done_) (f <$> bins))
  = Ok ((λ c, h (f c) (g c)) <$> bins).
Proof.
  revert done_. induction bins as [|c bins IH]; intros done_; [done|].
  cbn [fmap list_fmap enumerate_from comprehension].
  unfold getitem at 1. rewrite list_lookup_fmap, lookup_app_r by done.
  rewrite Nat.sub_diag. cbn [lookup list_lookup fmap option_fmap option_map rbind].
  specialize (IH (done_ ++ [c])). rewrite length_app, Nat.add_1_r in IH.
  rewrite <- app_assoc in IH. cbn [app] in IH. by rewrite IH.
Qed.

Lemma band_comprehension_all {B} (f g : list Z → npfloat)
    (h : npfloat → npfloat → B) (bins : list (list Z)) :
  comprehension
    (λ '(i, avg), std ↢ getitem (g <$> bins) i; Ok (h avg std))
    (enumerate (f <$> bins))
  = Ok ((λ c, h (f c) (g c)) <$> bins).
Proof. exact (band_comprehension f g h [] bins). Qed.

Lemma stdBracket_eq lol lowerLimit bins :
  zipLOL lol = Ok bins →
  stdBracket lol lowerLimit
  = Ok (mk_bracket (band_top <$> bins) (band_bottom lowerLimit <$> bins)).
Proof.
  intros Hbins. unfold stdBracket, zipStdLOL, zipAvgLOL. rewrite Hbins.
  cbn [rbind].
  rewrite (band_comprehension_all np_average np_std fadd).
  cbn [rbind].
  by rewrite (band_comprehension_all np_average np_std
                (λ avg std, py_max (fsub avg std) (Fin lowerLimit))).
Qed.

(** Sequences without absent entries leave no column empty. *)
Lemma column_nonempty {A} (lol : list (list (option A))) i :
  Forall (λ l, None ∉ l) lol → i < max_list (length <$> lol) →
  column i lol ≠ [].
Proof.
  intros Hno Hi.
  assert (length <$> lol ≠ []) as Hne by (by destruct lol; [simpl in Hi; lia|]).
  apply max_list_elem_of, list_elem_of_fmap in Hne as (l & Hlen & Hl).
  destruct (lookup_lt_is_Some_2 l i) as [[v|] Hv]; [lia| |].
  - intros Hnil. assert (v ∈ column i lol) as Hin by (apply elem_of_column; eauto).
    rewrite Hnil in Hin. by apply not_elem_of_nil in Hin.
  - rewrite Forall_forall in Hno. destruct (Hno l Hl).
    by eapply list_elem_of_lookup_2.
Qed.

(** C7: for every non-empty list of sequences and every [lowerLimit >= 0],
    [stdBracket] returns, for each column of the transpose, [top] = mean +
    standard deviation and [bottom] = max(mean - standard deviation,
    lowerLimit), and no [bottom] value is below [lowerLimit]. *)
Theorem stdBracket_band (lol : list (list (option Z))) (lowerLimit : R) :
  lol ≠ [] → (0 <= lowerLimit)%R →
  ∃ bins,
    zipLOL lol = Ok bins
    ∧ stdBracket lol lowerLimit
      = Ok (mk_bracket (band_top <$> bins) (band_bottom lowerLimit <$> bins))
    ∧ Forall (λ b, ¬ below b lowerLimit) (band_bottom lowerLimit <$> bins)
    ∧ Forall (λ c, c ≠ [] →
        band_top c = Fin (mean c + sqrt (variance c))
        ∧ band_bottom lowerLimit c
          = Fin (Rmax (mean c - sqrt (variance c)) lowerLimit)) bins
    ∧ (Forall (λ l, None ∉ l) lol → Forall (λ c, c ≠ []) bins).
Proof.
  intros Hne _.
  assert (∃ bins, zipLOL lol = Ok bins
            ∧ length bins = max_list (length <$> lol)
            ∧ ∀ i, i < length bins → bins !! i = Some (column i lol))
    as (bins & Hbins & Hlen & Hcol).
  { destruct lol as [|l lol]; [done|]. apply zipLOL_eq. }
  exists bins. split; [done|]. split; [by apply stdBracket_eq|]. split.
  { apply Forall_fmap, Forall_forall. intros c _. apply py_max_not_below. }
  split.
  { apply Forall_forall. intros [|z c] _ Hc; [done|].
    unfold band_top, band_bottom. cbn [np_average np_std fadd fsub].
    by rewrite py_max_Rmax. }
  intros Hno. apply Forall_lookup. intros i c Hi.
  assert (i < length bins) as Hlt by (by eapply lookup_lt_Some).
  rewrite Hcol in Hi by done. assert (c = column i lol) as -> by congruence.
  apply column_nonempty; [done|lia].
Qed.

Lemma stdBracket_band_witness :
  ∃ bins,
    zipLOL [[Some 10; Some 20]; [Some 5]]%Z = Ok bins
    ∧ Forall (λ b, ¬ below b 1) (band_bottom 1 <$> bins).
Proof.
  destruct (stdBracket_band [[Some 10; Some 20]; [Some 5]]%Z 1)
    as (bins & Hbins & _ & Hlow & _); [discriminate|lra|].
  exists bins. split; [exact Hbins|exact Hlow].
Defined.

End stdBracket.

(** ** Report builder *)

Section builder.

Lemma movePredictions_tensor pa pb :
  movePredictions
    (Arr [Arr [];
          Arr [Arr ((λ x, Arr [Num x]) <$> pa)];
          Arr [Arr ((λ x, Arr [Num x]) <$> pb)]])
  = Ok (zip ((λ x, Arr [Num x]) <$> pa) ((λ x, Arr [Num x]) <$> pb)).
Proof. reflexivity. Qed.

Lemma comprehension_new ams pa pb :
  comprehension (λ amp, MoveReport.new amp.1 amp.2)
    (zip ams (zip ((λ x, Arr [Num x]) <$> pa) ((λ x, Arr [Num x]) <$> pb)))
  = Ok (zip_with built_move ams (zip pa pb)).
Proof.
  revert pa pb. induction ams as [|am ams IH]; intros pa pb; [done|].
  destruct pa as [|a pa], pb as [|b pb]; try done.
  cbn [fmap list_fmap zip zip_with comprehension].
  rewrite IH. reflexivity.
Qed.



End builder.

(** ** Serialization round trip *)

Section round_trip.

Lemma MoveReport_round_trip (m : MoveReport.t) :
  MoveReportBSONHandler.reads (MoveReportBSONHandler.writes m) = Ok m.
Proof. by destruct m as [a [r|] am o l]. Qed.

Lemma moves_round_trip (ms : list MoveReport.t) :
  comprehension (λ mBson, rbind (as_doc mBson) MoveReportBSONHandler.reads)
    ((λ move, BDoc (MoveReportBSONHandler.writes move)) <$> ms)
  = Ok ms.
Proof.
  induction ms as [|m ms IH]; [done|].
  cbn [fmap list_fmap comprehension as_doc rbind].
  by rewrite MoveReport_round_trip, IH.
Qed.

(** C9: reading back what [writes] produced for a game record, its move
    records included, gives the record itself. *)
Theorem GameReport_round_trip (g : GameReport.t) :
  GameReportBSONHandler.reads (GameReportBSONHandler.writes g) = Ok g
  ∧ Forall (λ m, MoveReportBSONHandler.reads (MoveReportBSONHandler.writes m)
                 = Ok m) (GameReport.moves g).
Proof.
  split.
  - destruct g as [id rid gid act ms].
    unfold GameReportBSONHandler.reads, GameReportBSONHandler.writes, field.
    cbn [GameReport.id GameReport.reportId GameReport.gameId
         GameReport.activation GameReport.moves].
    repeat (rewrite lookup_insert_eq || rewrite lookup_insert_ne by done).
    cbn [rbind as_str as_int as_list]. by rewrite moves_round_trip.
  - apply Forall_forall. intros m _. apply MoveReport_round_trip.
Qed.

End round_trip.

(** * Further properties of the code *)

(** ** The store and its order *)

Section store_order.
Import GameReportStore.

Lemma insert_by_key_filter_eq a obj l :
  GameReport.activation obj = a →
  filter (λ g, GameReport.activation g = a) (insert_by_key obj l)
  = obj :: filter (λ g, GameReport.activation g = a) l.
Proof.
  intros Ha. induction l as [|x l IH]; simpl.
  - by rewrite filter_cons, decide_True.
  - destruct (Z.leb_spec (sort_key obj) (sort_key x)) as [Hle|Hlt].
    + by rewrite (filter_cons _ obj), decide_True.
    + rewrite !(filter_cons _ x).
      destruct (decide (GameReport.activation x = a));
        [unfold sort_key in Hlt; lia|exact IH].
Qed.

Lemma insert_by_key_filter_ne a obj l :
  GameReport.activation obj ≠ a →
  filter (λ g, GameReport.activation g = a) (insert_by_key obj l)
  = filter (λ g, GameReport.activation g = a) l.
Proof.
  intros Ha. induction l as [|x l IH]; simpl.
  - by rewrite filter_cons, decide_False.
  - destruct (sort_key obj <=? sort_key x)%Z.
    + by rewrite (filter_cons _ obj), decide_False.
    + rewrite !(filter_cons _ x). by rewrite IH.
Qed.

(** X1: [GameReportStore.new] leaves the list sorted descending by
    activation, with the same games, those of equal activation in the order
    they had; sorting again changes nothing. *)
Theorem new_sorts_stably (gameReports : list GameReport.t) :
  StronglySorted descending (new gameReports)
  ∧ new gameReports ≡ₚ gameReports
  ∧ (∀ a, filter (λ g, GameReport.activation g = a) (new gameReports)
          = filter (λ g, GameReport.activation g = a) gameReports)
  ∧ new (new gameReports) = new gameReports.
Proof.
  unfold new. split; [apply list_sort_sorted|]. split; [apply list_sort_perm|].
  split; [|apply list_sort_id, list_sort_sorted].
  intros a. induction gameReports as [|g gs IH]; [done|]. simpl.
  rewrite (filter_cons _ g). case_decide as Hg.
  - by rewrite insert_by_key_filter_eq, IH.
  - by rewrite insert_by_key_filter_ne, IH.
Qed.

(** X2: [topGames] leaves the collection as [new] would; on a collection
    made by [new] it changes nothing, and it answers the same whether or not
    the collection was sorted before, so a second call repeats the first. *)
Theorem topGames_state (p q : Q) (gameReports : list GameReport.t) :
  (topGames p gameReports).2 = new gameReports
  ∧ (topGames p (new gameReports)).2 = new gameReports
  ∧ topGames p (new gameReports) = topGames p gameReports
  ∧ topGames p (topGames q gameReports).2 = topGames p gameReports.
Proof.
  assert (topGames p (new gameReports) = topGames p gameReports) as Hsame.
  { rewrite !topGames_eq. unfold new.
    by rewrite list_sort_length, (list_sort_id _ (list_sort_sorted _)). }
  split; [by rewrite topGames_eq|]. split; [by rewrite Hsame, topGames_eq|].
  split; [done|]. by rewrite (topGames_eq q).
Qed.

Lemma cutoff_pos (p : Q) N : (0 <= p)%Q → 0 < cutoff p N.
Proof.
  intros Hp. unfold cutoff.
  assert (0 ≤ Qfloor (p * inject_Z (Z.of_nat N)))%Z; [|lia].
  change 0%Z with (Qfloor 0). apply Qfloor_resp_le.
  apply Qmult_le_0_compat; [done|].
  change 0%Q with (inject_Z 0). rewrite <- Zle_Qle. lia.
Qed.

Lemma cutoff_mono (p q : Q) N : (p <= q)%Q → cutoff p N ≤ cutoff q N.
Proof.
  intros Hpq. unfold cutoff.
  assert (Qfloor (p * inject_Z (Z.of_nat N))
          ≤ Qfloor (q * inject_Z (Z.of_nat N)))%Z; [|lia].
  apply Qfloor_resp_le, Qmult_le_compat_r; [done|].
  change 0%Q with (inject_Z 0). rewrite <- Zle_Qle. lia.
Qed.

Lemma cutoff_all (p : Q) N : (1 <= p)%Q → N < cutoff p N.
Proof.
  intros Hp. apply index_le_cutoff, Qle_bool_iff.
  rewrite <- (Qmult_1_l (inject_Z (Z.of_nat N))) at 1.
  apply Qmult_le_compat_r; [done|].
  change 0%Q with (inject_Z 0). rewrite <- Zle_Qle. lia.
Qed.

Lemma List_filter_sublist {A} (f : A → bool) l : List.filter f l `sublist_of` l.
Proof.
  induction l as [|x l IH]; simpl; [done|].
  destruct (f x); by constructor.
Qed.

Lemma first_or_outlier_mono k k' l :
  k ≤ k' → first_or_outlier k l `sublist_of` first_or_outlier k' l.
Proof.
  unfold first_or_outlier. revert k k'.
  induction l as [|x l IH]; intros k k' Hk.
  { by rewrite !take_nil, !drop_nil. }
  destruct k as [|k], k' as [|k']; try lia; simpl.
  - done.
  - specialize (IH 0 k' ltac:(lia)). rewrite take_0, drop_0 in IH. simpl in IH.
    destruct (outlier x); by constructor.
  - constructor. apply IH. lia.
Qed.

Lemma first_or_outlier_sublist k l : first_or_outlier k l `sublist_of` l.
Proof.
  unfold first_or_outlier. rewrite <- (take_drop k l) at 3.
  apply sublist_app; [done|apply List_filter_sublist].
Qed.

Lemma first_or_outlier_all k l : length l ≤ k → first_or_outlier k l = l.
Proof.
  intros Hk. unfold first_or_outlier.
  rewrite take_ge, drop_ge by done. simpl. by rewrite app_nil_r.
Qed.

Lemma sublist_sorted (l1 l2 : list GameReport.t) :
  l1 `sublist_of` l2 → StronglySorted descending l2 →
  StronglySorted descending l1.
Proof.
  induction 1 as [|x l1 l2 Hsub IH|x l1 l2 Hsub IH]; intros Hs; [done|..].
  - apply StronglySorted_inv in Hs as [Hs Hx]. constructor; [by apply IH|].
    rewrite Forall_forall in *. intros y Hy. apply Hx.
    by eapply elem_of_sublist.
  - apply StronglySorted_inv in Hs as [Hs _]. by apply IH.
Qed.

Lemma topGames_best_first_aux (p : Q) (gameReports : list GameReport.t) :
  gameReports ≠ [] → (0 <= p)%Q →
  ∃ best rest, (topGames p gameReports).1 = Ok (best :: rest).
Proof.
  intros Hne Hp. rewrite topGames_eq. cbn [fst].
  pose proof (list_sort_perm gameReports) as Hperm.
  destruct (list_sort gameReports) as [|best l] eqn:Hl.
  { apply Permutation_nil_l in Hperm. by subst. }
  pose proof (cutoff_pos p (length gameReports) Hp) as Hc.
  destruct (cutoff p (length gameReports)) as [|k]; [lia|].
  by exists best, (first_or_outlier k l).
Qed.

(** X3: for [p >= 0] the top subset of a non-empty collection is not empty:
    it starts with a game of the highest activation. *)
Theorem topGames_best_first (p : Q) (gameReports : list GameReport.t) :
  gameReports ≠ [] → (0 <= p)%Q →
  ∃ best rest,
    (topGames p gameReports).1 = Ok (best :: rest)
    ∧ best ∈ gameReports
    ∧ ∀ g, g ∈ gameReports →
        (GameReport.activation g ≤ GameReport.activation best)%Z.
Proof.
  intros Hne Hp. rewrite topGames_eq. cbn [fst].
  pose proof (list_sort_perm gameReports) as Hperm.
  pose proof (list_sort_sorted gameReports) as Hsorted.
  destruct (list_sort gameReports) as [|best l] eqn:Hl.
  { apply Permutation_nil_l in Hperm. by subst. }
  pose proof (cutoff_pos p (length gameReports) Hp) as Hc.
  destruct (cutoff p (length gameReports)) as [|k]; [lia|].
  exists best, (first_or_outlier k l). split; [done|]. split.
  - rewrite <- Hperm. apply list_elem_of_here.
  - intros g Hg. rewrite <- Hperm in Hg.
    apply StronglySorted_inv in Hsorted as [_ Hbest].
    apply elem_of_cons in Hg as [->|Hg]; [done|].
    rewrite Forall_forall in Hbest. by apply Hbest.
Qed.

Lemma topGames_best_first_witness :
  ∃ best rest,
    (topGames (3 # 20) [game5; game10]).1 = Ok (best :: rest)
    ∧ best ∈ [game5; game10]
    ∧ ∀ g, g ∈ [game5; game10] →
        (GameReport.activation g ≤ GameReport.activation best)%Z.
Proof.
  apply (topGames_best_first (3 # 20) [game5; game10]);
    [discriminate|vm_compute; discriminate].
Defined.

(** X4: the top subset is a subsequence of the sorted collection, so it is
    sorted descending itself, and it grows with [p]. *)
Theorem topGames_monotone (p q : Q) (gameReports : list GameReport.t) :
  (p <= q)%Q →
  ∃ tp tq,
    (topGames p gameReports).1 = Ok tp
    ∧ (topGames q gameReports).1 = Ok tq
    ∧ tp `sublist_of` tq
    ∧ tq `sublist_of` new gameReports
    ∧ StronglySorted descending tp.
Proof.
  intros Hpq. rewrite !topGames_eq. eexists _, _.
  split; [done|]. split; [done|].
  split; [by apply first_or_outlier_mono, cutoff_mono|].
  split; [apply first_or_outlier_sublist|].
  eapply sublist_sorted; [apply first_or_outlier_sublist|apply list_sort_sorted].
Qed.

Lemma topGames_monotone_witness :
  ∃ tp tq,
    (topGames (3 # 20) [game5; game95; game10]).1 = Ok tp
    ∧ (topGames (1 # 2) [game5; game95; game10]).1 = Ok tq
    ∧ tp `sublist_of` tq
    ∧ tq `sublist_of` new [game5; game95; game10]
    ∧ StronglySorted descending tp.
Proof.
  apply (topGames_monotone (3 # 20) (1 # 2) [game5; game95; game10]).
  vm_compute. discriminate.
Defined.

(** X5: for [p >= 1] the top subset is the whole collection, sorted. *)
Theorem topGames_all (p : Q) (gameReports : list GameReport.t) :
  (1 <= p)%Q →
  topGames p gameReports = (Ok (new gameReports), new gameReports).
Proof.
  intros Hp. rewrite topGames_eq. unfold new.
  rewrite first_or_outlier_all; [done|].
  rewrite list_sort_length. pose proof (cutoff_all p (length gameReports) Hp). lia.
Qed.

Lemma topGames_all_witness :
  topGames 1 [game5; game95; game10]
  = (Ok (new [game5; game95; game10]), new [game5; game95; game10]).
Proof. apply (topGames_all 1). vm_compute. discriminate. Defined.

End store_order.

(** ** What the methods of the store do to the collection *)

Section store_state.
Import GameReportStore.

Lemma read_only_keeps {X} (m : method X) : read_only m → keeps_games m.
Proof. intros Hm gs. by rewrite Hm. Qed.

Lemma ret_read_only {X} (x : X) : read_only (ret x).
Proof. done. Qed.

Lemma call_read_only {X} (r : result X) : read_only (call r).
Proof. done. Qed.

Lemma self_gameReports_read_only : read_only self_gameReports.
Proof. done. Qed.

Lemma bind_read_only {X Y} (m : method X) (k : X → method Y) :
  read_only m → (∀ x, read_only (k x)) → read_only (bind m k).
Proof.
  intros Hm Hk gs. unfold bind. specialize (Hm gs).
  destruct (m gs) as [[x|e] st]; simpl in *; subst; [apply Hk|done].
Qed.

Lemma bind_keeps {X Y} (m : method X) (k : X → method Y) :
  keeps_games m → (∀ x, keeps_games (k x)) → keeps_games (bind m k).
Proof.
  intros Hm Hk gs. unfold bind. specialize (Hm gs).
  destruct (m gs) as [[x|e] st]; simpl in *; [|done].
  by rewrite (Hk x st).
Qed.

Lemma topGames_keeps p : keeps_games (topGames p).
Proof. intros gs. rewrite topGames_eq. apply list_sort_perm. Qed.

Lemma selected_keeps top : keeps_games (selected top).
Proof.
  destruct top; [apply topGames_keeps|].
  apply read_only_keeps, self_gameReports_read_only.
Qed.

Lemma longestGame_read_only : read_only longestGame.
Proof. intros gs. by rewrite longestGame_eq. Qed.

Ltac step_method :=
  first
    [ case_decide
    | apply bind_keeps; [|intros ?]
    | apply selected_keeps
    | apply bind_read_only; [|intros ?]
    | apply longestGame_read_only
    | apply self_gameReports_read_only
    | apply ret_read_only
    | apply call_read_only
    | apply read_only_keeps ].

(** X6: no method of the store adds, drops or changes a game: each leaves the
    collection a reordering of what it was, and without [top] leaves it
    untouched. *)
Theorem methods_only_reorder (top : bool) :
  (keeps_games (losses top) ∧ keeps_games (ranks None top)
   ∧ keeps_games (averageLossByMove top) ∧ keeps_games (averageRankByMove top)
   ∧ keeps_games (stdBracketLossByMove top)
   ∧ keeps_games (stdBracketRankByMove top)
   ∧ keeps_games (binnedActivations top)
   ∧ keeps_games (binnedMoveActivations top) ∧ keeps_games (activations top))
  ∧ (read_only longestGame ∧ read_only (losses false)
     ∧ read_only (ranks None false) ∧ read_only (averageLossByMove false)
     ∧ read_only (averageRankByMove false)
     ∧ read_only (stdBracketLossByMove false)
     ∧ read_only (stdBracketRankByMove false)
     ∧ read_only (binnedActivations false)
     ∧ read_only (binnedMoveActivations false)
     ∧ read_only (activations false)).
Proof.
  split.
  - unfold losses, ranks, averageLossByMove, averageRankByMove,
      stdBracketLossByMove, stdBracketRankByMove, binnedActivations,
      binnedMoveActivations, activations.
    repeat split; repeat step_method.
  - unfold losses, ranks, averageLossByMove, averageRankByMove,
      stdBracketLossByMove, stdBracketRankByMove, binnedActivations,
      binnedMoveActivations, activations, selected.
    repeat split; repeat step_method.
Qed.

(** What [self.topGames() if top else self.gameReports] gives. *)
Lemma selected_facts top gameReports :
  ∃ games gameReports',
    selected top gameReports = (Ok games, gameReports')
    ∧ (∀ g, g ∈ games → g ∈ gameReports)
    ∧ (gameReports ≠ [] → games ≠ [])
    ∧ (top = false → games = gameReports).
Proof.
  destruct top; simpl.
  - rewrite topGames_eq. eexists _, _. split; [done|]. split; [|split; [|done]].
    + intros g Hg. rewrite <- (list_sort_perm gameReports).
      eapply elem_of_sublist; [exact Hg|apply first_or_outlier_sublist].
    + intros Hne.
      destruct (topGames_best_first_aux (3 # 20) gameReports Hne)
        as (best & rest & Hbest); [by vm_compute|].
      rewrite topGames_eq in Hbest. simpl in Hbest.
      injection Hbest as ->. done.
  - eexists _, _. by repeat split.
Qed.

Lemma max_moves_zero (gameReports : list GameReport.t) :
  max_list ((λ g, length (GameReport.moves g)) <$> gameReports) = 0
  ↔ Forall (λ g, GameReport.moves g = []) gameReports.
Proof.
  set (f := λ g, length (GameReport.moves g)). split.
  - intros H0. apply Forall_forall. intros g Hg.
    assert (f g ≤ max_list (f <$> gameReports)) as Hle.
    { apply max_list_elem_of_le, list_elem_of_fmap. eauto. }
    rewrite H0 in Hle. unfold f in Hle.
    destruct (GameReport.moves g); [done|simpl in Hle; lia].
  - intros Hall. induction Hall as [|g gs Hg _ IH]; [done|].
    change (max_list (f <$> g :: gs))
      with (f g `max` max_list (f <$> gs)).
    rewrite IH. unfold f. by rewrite Hg.
Qed.

(** X7: [longestGame] is 0 on the empty collection and otherwise the number
    of moves of some game, no game having more; it is 0 exactly when no game
    has a move. *)
Theorem longestGame_bounds (gameReports : list GameReport.t) :
  ∃ n,
    longestGame gameReports = (Ok n, gameReports)
    ∧ Forall (λ g, length (GameReport.moves g) ≤ n) gameReports
    ∧ (gameReports ≠ [] →
       ∃ g, g ∈ gameReports ∧ length (GameReport.moves g) = n)
    ∧ (n = 0 ↔ Forall (λ g, GameReport.moves g = []) gameReports).
Proof.
  rewrite longestGame_eq. eexists. split; [done|].
  set (f := λ g, length (GameReport.moves g)).
  assert (Forall (λ g, f g ≤ max_list (f <$> gameReports)) gameReports) as Hle.
  { apply Forall_forall. intros g Hg.
    apply max_list_elem_of_le, list_elem_of_fmap. eauto. }
  split; [done|]. split.
  - intros Hne.
    assert (f <$> gameReports ≠ []) as Hne' by (by destruct gameReports).
    apply max_list_elem_of, list_elem_of_fmap in Hne' as (g & Hn & Hg). eauto.
  - apply max_moves_zero.
Qed.

End store_state.

(** ** Rank and loss series by move *)

Section by_move.
Import GameReportStore.

Lemma GameReport_ranks_no_None v g : None ∉ GameReport.ranks (Some v) g.
Proof.
  unfold GameReport.ranks. intros Hin.
  apply list_elem_of_fmap in Hin as (m & Hm & _).
  by destruct (MoveReport.rank m).
Qed.

(** X8: with a substitute for the missing ranks, [ranks] never raises and
    gives, for each selected game, one value per move: the rank of the move,
    or the substitute where the move has none; no value is [None]. *)
Theorem ranks_substituted (v : Z) (top : bool)
    (gameReports : list GameReport.t) :
  ∃ games series gameReports',
    selected top gameReports = (Ok games, gameReports')
    ∧ ranks (Some v) top gameReports = (Ok series, gameReports')
    ∧ Forall2 (λ g l,
        length l = length (GameReport.moves g)
        ∧ (None ∉ l)
        ∧ (∀ i m, GameReport.moves g !! i = Some m →
             l !! i = Some (Some (default v (MoveReport.rank m)))))
        games series.
Proof.
  destruct (selected_facts top gameReports) as (games & st & Hsel & _).
  exists games, (GameReport.ranks (Some v) <$> games), st.
  split; [done|]. split.
  { unfold ranks, bind, ret. by rewrite Hsel. }
  apply Forall2_fmap_r, Forall_Forall2_diag, Forall_forall. intros g _.
  split; [unfold GameReport.ranks; by rewrite length_fmap|].
  split; [apply GameReport_ranks_no_None|].
  intros i m Hm. unfold GameReport.ranks.
  rewrite list_lookup_fmap, Hm. simpl. by destruct (MoveReport.rank m).
Qed.

(** The transpose of sequences without absent entries: no column is empty,
    so no mean and no deviation is [nan]. *)
Lemma zipLOL_full (lol : list (list (option Z))) :
  lol ≠ [] → Forall (λ l, None ∉ l) lol →
  ∃ bins,
    zipLOL lol = Ok bins
    ∧ length bins = max_list (length <$> lol)
    ∧ Forall (λ c, c ≠ []) bins.
Proof.
  intros Hne Hno. destruct lol as [|l lol]; [done|].
  destruct (zipLOL_eq l lol) as (bins & Hbins & Hlen & Hcol).
  exists bins. split; [done|]. split; [done|].
  apply Forall_lookup. intros i c Hi.
  assert (i < length bins) as Hlt by (by eapply lookup_lt_Some).
  rewrite Hcol in Hi by done.
  assert (c = column i (l :: lol)) as -> by congruence.
  apply column_nonempty; [done|lia].
Qed.

Lemma np_average_finite c : c ≠ [] → finite (np_average c).
Proof. by destruct c. Qed.

Lemma band_top_finite c : c ≠ [] → finite (band_top c).
Proof. by destruct c. Qed.

Lemma band_bottom_finite ll c : c ≠ [] → finite (band_bottom ll c).
Proof.
  destruct c as [|z c]; [done|]. intros _. unfold band_bottom.
  cbn [np_average np_std fsub]. by rewrite py_max_Rmax.
Qed.

(** The two "by move" results on a series without absent entries. *)
Lemma by_move_full (lol : list (list (option Z))) (lowerLimit : R) :
  lol ≠ [] → Forall (λ l, None ∉ l) lol →
  ∃ avgs br,
    zipAvgLOL lol = Ok avgs
    ∧ stdBracket lol lowerLimit = Ok br
    ∧ length avgs = max_list (length <$> lol)
    ∧ length (top br) = length avgs
    ∧ length (bottom br) = length avgs
    ∧ Forall finite avgs ∧ Forall finite (top br) ∧ Forall finite (bottom br)
    ∧ Forall (λ b, ¬ below b lowerLimit) (bottom br).
Proof.
  intros Hne Hno.
  destruct (zipLOL_full lol Hne Hno) as (bins & Hbins & Hlen & Hfull).
  exists (np_average <$> bins),
    (mk_bracket (band_top <$> bins) (band_bottom lowerLimit <$> bins)).
  split; [unfold zipAvgLOL; by rewrite Hbins|].
  split; [by apply stdBracket_eq|]. cbn [top bottom].
  rewrite !length_fmap. repeat split; try done.
  - apply Forall_fmap. eapply Forall_impl; [exact Hfull|].
    apply np_average_finite.
  - apply Forall_fmap. eapply Forall_impl; [exact Hfull|].
    apply band_top_finite.
  - apply Forall_fmap. eapply Forall_impl; [exact Hfull|].
    intros c. apply band_bottom_finite.
  - apply Forall_fmap, Forall_forall. intros c _. apply py_max_not_below.
Qed.

(** X9: [averageRankByMove] and [stdBracketRankByMove] never raise. When no
    game has a move they return their zero case; otherwise they return one
    mean and one band per column, none of them [nan], the two sides of the
    band as long as the means and no bottom value below the limit 1. *)
Theorem rank_by_move_total (top : bool) (gameReports : list GameReport.t) :
  ∃ avg band gameReports',
    averageRankByMove top gameReports = (Ok avg, gameReports')
    ∧ stdBracketRankByMove top gameReports = (Ok band, gameReports')
    ∧ ((Forall (λ g, GameReport.moves g = []) gameReports
        ∧ avg = zero_case ∧ band = zero_case)
       ∨ ∃ avgs br,
           avg = json_dumps avgs ∧ band = json_dumps br
           ∧ length (GameReportStore.top br) = length avgs
           ∧ length (bottom br) = length avgs
           ∧ Forall finite avgs
           ∧ Forall finite (GameReportStore.top br)
           ∧ Forall finite (bottom br)
           ∧ Forall (λ b, ¬ below b 1) (bottom br)).
Proof.
  pose proof (longestGame_eq gameReports) as Hn.
  pose proof (max_moves_zero gameReports) as Hzero.
  set (n := max_list _) in Hn, Hzero.
  unfold averageRankByMove, stdBracketRankByMove, bind. rewrite Hn.
  destruct (decide (n = 0)) as [H0|Hpos].
  { eexists _, _, _. split; [done|]. split; [done|]. left.
    by split; [apply Hzero|]. }
  assert (gameReports ≠ []) as Hne.
  { intros ->. apply Hpos, Hzero. constructor. }
  destruct (selected_facts top gameReports)
    as (games & st & Hsel & _ & Hgames & _).
  unfold ranks, bind, ret. rewrite Hsel. unfold call.
  destruct (by_move_full (GameReport.ranks (Some 6%Z) <$> games) 1)
    as (avgs & br & -> & -> & _ & Ht & Hb & Ha & Hft & Hfb & Hlow).
  { specialize (Hgames Hne). by destruct games. }
  { apply Forall_fmap, Forall_forall. intros g _.
    apply GameReport_ranks_no_None. }
  eexists _, _, _. split; [done|]. split; [done|]. right.
  exists avgs, br. by repeat split.
Qed.

Lemma comprehension_losses_ok games :
  Forall (λ g, GameReport.moves g ≠ []) games →
  ∃ lol,
    comprehension GameReport.losses games = Ok lol
    ∧ length <$> lol = (λ g, length (GameReport.moves g)) <$> games.
Proof.
  induction 1 as [|g games Hg _ (lol & Hlol & Hlen)]; [by exists []|].
  destruct (GameReport.moves g) as [|m ms _] eqn:Hm using rev_ind; [done|].
  assert (MoveReport.loss <$> GameReport.moves g
          = (MoveReport.loss <$> ms) ++ [MoveReport.loss m]) as Hl.
  { by rewrite Hm, fmap_app. }
  eexists (_ :: lol). cbn [comprehension].
  rewrite (GameReport_losses_snoc _ _ _ Hl), Hlol. split; [done|].
  cbn [fmap list_fmap]. rewrite Hlen. f_equal.
  rewrite Hm. rewrite !length_app, length_fmap. done.
Qed.

(** X10: when every game has at least one move, [averageLossByMove] and
    [stdBracketLossByMove] do not raise: on a non-empty collection they
    return one mean and one band per column, none of them [nan], no bottom
    value below 0; without [top] the number of columns is the number of
    moves of the longest game. *)
Theorem loss_by_move_total (top : bool) (gameReports : list GameReport.t) :
  gameReports ≠ [] →
  Forall (λ g, GameReport.moves g ≠ []) gameReports →
  ∃ avgs br gameReports',
    averageLossByMove top gameReports = (Ok (json_dumps avgs), gameReports')
    ∧ stdBracketLossByMove top gameReports = (Ok (json_dumps br), gameReports')
    ∧ length (GameReportStore.top br) = length avgs
    ∧ length (bottom br) = length avgs
    ∧ Forall finite avgs
    ∧ Forall finite (GameReportStore.top br)
    ∧ Forall finite (bottom br)
    ∧ Forall (λ b, ¬ below b 0) (bottom br)
    ∧ (top = false →
       (longestGame gameReports).1 = Ok (length avgs)).
Proof.
  intros Hne Hall.
  pose proof (longestGame_eq gameReports) as Hn.
  pose proof (max_moves_zero gameReports) as Hzero.
  set (n := max_list _) in Hn, Hzero.
  assert (n ≠ 0) as Hpos.
  { intros H0. apply Hzero in H0. destruct gameReports as [|g gs]; [done|].
    apply Forall_inv in H0, Hall. done. }
  destruct (selected_facts top gameReports)
    as (games & st & Hsel & Hsub & Hgames & Htop).
  destruct (comprehension_losses_ok games) as (lol & Hlol & Hlen).
  { apply Forall_forall. intros g Hg. rewrite Forall_forall in Hall.
    by apply Hall, Hsub. }
  assert (length <$> values lol = length <$> lol) as Hvalues.
  { unfold values. rewrite <- list_fmap_compose. apply list_fmap_ext.
    intros _ l _. simpl. by rewrite length_fmap. }
  destruct (by_move_full (values lol) 0)
    as (avgs & br & Havg & Hbr & Hcols & Ht & Hb & Ha & Hft & Hfb & Hlow).
  { specialize (Hgames Hne). destruct games, lol; done. }
  { apply Forall_fmap, Forall_forall. intros l _ Hin.
    by apply list_elem_of_fmap in Hin as (? & ? & _). }
  exists avgs, br, st.
  split; [|split].
  { unfold averageLossByMove, bind. rewrite Hn, decide_False by done.
    unfold losses, bind, call, ret. by rewrite Hsel, Hlol, Havg. }
  { unfold stdBracketLossByMove, bind. rewrite Hn, decide_False by done.
    unfold losses, bind, call, ret. by rewrite Hsel, Hlol, Hbr. }
  repeat split; try done.
  intros ->. rewrite Hn. simpl. f_equal.
  by rewrite Hcols, Hvalues, Hlen, (Htop eq_refl).
Qed.

Lemma loss_by_move_total_witness :
  ∃ avgs,
    (averageLossByMove false [game_three_moves; game_two_moves]).1
    = Ok (json_dumps avgs)
    ∧ Forall finite avgs ∧ length avgs = 3.
Proof.
  destruct (loss_by_move_total false [game_three_moves; game_two_moves])
    as (avgs & br & st & Havg & _ & _ & _ & Hfin & _ & _ & _ & Hlen).
  - discriminate.
  - repeat constructor; discriminate.
  - exists avgs. rewrite Havg. split; [reflexivity|]. split; [exact Hfin|].
    specialize (Hlen eq_refl). vm_compute in Hlen. by injection Hlen.
Defined.

End by_move.

(** ** Means, deviations and bands *)

Section statistics.
Import GameReportStore.

Lemma py_sum_bounds (lo hi : Z) (c : list Z) :
  Forall (λ x, lo ≤ x ≤ hi)%Z c →
  (lo * Z.of_nat (length c) ≤ py_sum c ≤ hi * Z.of_nat (length c))%Z.
Proof.
  induction 1 as [|x c Hx _ IH]; [simpl; lia|].
  cbn [py_sum foldr length]. fold (py_sum c). lia.
Qed.

Lemma mean_bounds (lo hi : Z) (c : list Z) :
  c ≠ [] → Forall (λ x, lo ≤ x ≤ hi)%Z c →
  (IZR lo <= mean c <= IZR hi)%R.
Proof.
  intros Hne Hall. pose proof (py_sum_bounds lo hi c Hall) as [Hlo Hhi].
  assert (0 < IZR (Z.of_nat (length c)))%R as Hn.
  { apply IZR_lt. destruct c; [done|simpl; lia]. }
  apply IZR_le in Hlo, Hhi. rewrite mult_IZR in Hlo, Hhi.
  unfold mean. split.
  - apply (Rmult_le_reg_r (IZR (Z.of_nat (length c)))); [done|].
    unfold Rdiv. rewrite Rmult_assoc, Rinv_l, Rmult_1_r by lra. done.
  - apply (Rmult_le_reg_r (IZR (Z.of_nat (length c)))); [done|].
    unfold Rdiv. rewrite Rmult_assoc, Rinv_l, Rmult_1_r by lra. done.
Qed.

(** X11: every mean that [zipAvgLOL] returns lies between the bounds of the
    values it was given. *)
Theorem zipAvgLOL_within (lol : list (list (option Z))) (lo hi : Z)
    (avgs : list npfloat) :
  zipAvgLOL lol = Ok avgs →
  Forall (Forall (λ o, ∀ v, o = Some v → (lo ≤ v ≤ hi)%Z)) lol →
  Forall (λ a, ∀ r, a = Fin r → (IZR lo <= r <= IZR hi)%R) avgs.
Proof.
  intros Havg Hall. unfold zipAvgLOL in Havg.
  destruct lol as [|l lol]; [done|].
  destruct (zipLOL_eq l lol) as (bins & Hbins & Hlen & Hcol).
  rewrite Hbins in Havg. cbn [rbind] in Havg. injection Havg as <-.
  apply Forall_fmap, Forall_lookup. intros i c Hi r Hr.
  assert (i < length bins) as Hlt by (by eapply lookup_lt_Some).
  rewrite Hcol in Hi by done.
  assert (c = column i (l :: lol)) as -> by congruence.
  destruct (column i (l :: lol)) as [|z c] eqn:Hc; [done|].
  injection Hr as <-. apply mean_bounds; [done|].
  rewrite <- Hc. apply Forall_forall. intros v Hv.
  apply elem_of_column in Hv as (l' & Hl' & Hv).
  rewrite Forall_forall in Hall. specialize (Hall l' Hl').
  rewrite Forall_forall in Hall. apply (Hall (Some v)); [|done].
  by eapply list_elem_of_lookup_2.
Qed.

Lemma zipAvgLOL_within_witness :
  Forall (λ a, ∀ r, a = Fin r → (IZR 0 <= r <= IZR 20)%R)
    [Fin (mean [10; 5]%Z); Fin (mean [20]%Z)].
Proof.
  apply (zipAvgLOL_within [[Some 10; Some 20]; [Some 5]]%Z 0 20).
  - reflexivity.
  - repeat (apply Forall_cons_2 || apply Forall_nil_2);
      intros v Hv; injection Hv as <-; lia.
Defined.

Lemma zipLOL_single (l : list Z) :
  zipLOL [Some <$> l] = Ok ((λ x, [x]) <$> l).
Proof.
  destruct (zipLOL_eq (Some <$> l) []) as (bins & Hbins & Hlen & Hcol).
  rewrite Hbins. f_equal.
  assert (length bins = length l) as Hl.
  { rewrite Hlen. simpl. rewrite length_fmap. lia. }
  apply list_eq. intros i. rewrite list_lookup_fmap.
  destruct (decide (i < length bins)) as [Hi|Hi].
  - rewrite Hcol by done. unfold column, entry. cbn [omap list_omap].
    rewrite list_lookup_fmap.
    destruct (lookup_lt_is_Some_2 l i) as [x Hx]; [lia|]. by rewrite Hx.
  - rewrite !lookup_ge_None_2 by lia. done.
Qed.

(** X12: on a single sequence, [zipAvgLOL] returns the sequence itself and
    [zipStdLOL] returns zeros. *)
Theorem zip_single_sequence (l : list Z) :
  zipAvgLOL [Some <$> l] = Ok ((λ x, Fin (IZR x)) <$> l)
  ∧ zipStdLOL [Some <$> l] = Ok ((λ _, Fin 0) <$> l).
Proof.
  unfold zipAvgLOL, zipStdLOL. rewrite zipLOL_single. cbn [rbind].
  rewrite <- !list_fmap_compose.
  assert (∀ x, mean [x] = IZR x) as Hmean.
  { intros x. unfold mean. cbn [py_sum foldr length].
    rewrite Z.add_0_r. change (Z.of_nat 1) with 1%Z. lra. }
  split; f_equal; apply list_fmap_ext; intros _ x _; simpl; f_equal.
  - apply Hmean.
  - unfold variance. cbn [fmap list_fmap Rsum foldr length]. rewrite Hmean.
    change (Z.of_nat 1) with 1%Z.
    replace ((IZR x - IZR x) * (IZR x - IZR x) + 0)%R with 0%R by lra.
    replace (0 / 1)%R with 0%R by lra. apply sqrt_0.
Qed.

Lemma Rsum_squares_nonneg (f : Z → R) (c : list Z) :
  (0 <= Rsum ((λ x, f x * f x)%R <$> c))%R.
Proof.
  unfold Rsum. induction c as [|x c IH]; cbn [fmap list_fmap foldr]; [lra|].
  pose proof (Rle_0_sqr (f x)) as Hsq. unfold Rsqr in Hsq. lra.
Qed.

Lemma variance_nonneg (c : list Z) : c ≠ [] → (0 <= variance c)%R.
Proof.
  intros Hne. unfold variance.
  assert (0 < IZR (Z.of_nat (length c)))%R as Hn.
  { apply IZR_lt. destruct c; [done|simpl; lia]. }
  apply Rmult_le_pos; [apply Rsum_squares_nonneg|].
  apply Rlt_le, Rinv_0_lt_compat, Hn.
Qed.

(** X13: on a non-empty column the deviation [s] that [np.std] returns is
    not negative and its square is the mean square distance to the mean; the
    top of the band is [mean + s], never below the mean, and the bottom is
    never above the top unless the lower limit itself is. *)
Theorem band_order (c : list Z) (lowerLimit : R) :
  c ≠ [] →
  ∃ s b,
    np_std c = Fin s ∧ (0 <= s)%R ∧ (s * s = variance c)%R
    ∧ band_top c = Fin (mean c + s) ∧ (mean c <= mean c + s)%R
    ∧ band_bottom lowerLimit c = Fin b
    ∧ (lowerLimit <= b)%R
    ∧ (lowerLimit <= mean c + s → b <= mean c + s)%R.
Proof.
  intros Hne. destruct c as [|z c]; [done|].
  set (col := z :: c) in *.
  exists (sqrt (variance col)),
    (Rmax (mean col - sqrt (variance col)) lowerLimit).
  pose proof (sqrt_pos (variance col)) as Hs.
  split; [done|]. split; [done|].
  split; [by apply sqrt_sqrt, variance_nonneg|].
  split; [done|]. split; [lra|]. split.
  { unfold band_bottom. cbn [np_average np_std fsub col].
    by rewrite py_max_Rmax. }
  split; [apply Rmax_r|].
  intros Hll. apply Rmax_lub; lra.
Qed.

Lemma band_order_witness :
  ∃ s b,
    np_std [10; 5]%Z = Fin s ∧ (0 <= s)%R ∧ (s * s = variance [10; 5]%Z)%R
    ∧ band_top [10; 5]%Z = Fin (mean [10; 5]%Z + s)
    ∧ (mean [10; 5]%Z <= mean [10; 5]%Z + s)%R
    ∧ band_bottom 0 [10; 5]%Z = Fin b
    ∧ (0 <= b)%R
    ∧ (0 <= mean [10; 5]%Z + s → b <= mean [10; 5]%Z + s)%R.
Proof. apply (band_order [10; 5]%Z 0). discriminate. Defined.

End statistics.

(** ** Move activations *)

Section move_activations.
Import GameReportStore.

Lemma foldl_extend {A B} (f : A → list B) (acc : list B) (l : list A) :
  foldl (λ acc x, acc ++ f x) acc l = acc ++ concat (f <$> l).
Proof.
  revert acc. induction l as [|x l IH]; intros acc; simpl.
  - by rewrite app_nil_r.
  - by rewrite IH, app_assoc.
Qed.

Lemma foldl_app_concat {B} (x : list B) (xs : list (list B)) :
  foldl app x xs = x ++ concat xs.
Proof.
  revert x. induction xs as [|y xs IH]; intros x; simpl.
  - by rewrite app_nil_r.
  - by rewrite IH, app_assoc.
Qed.

Lemma histogram_sum xs : py_sum (histogram xs) = count_in 0 100 xs.
Proof.
  rewrite histogram_buckets, <- count_in_deciles. cbn [py_sum foldr].
  rewrite (bucket_count 90 100), (bucket_count 80 90), (bucket_count 70 80),
    (bucket_count 60 70), (bucket_count 50 60), (bucket_count 40 50),
    (bucket_count 30 40), (bucket_count 20 30), (bucket_count 10 20),
    (bucket_count 0 10) by done.
  lia.
Qed.

(** X14: [activations] never raises and returns the move activations of the
    selected games, game after game; on a non-empty collection
    [binnedMoveActivations] is the histogram of exactly these values: ten
    counts whose sum is the number of move activations in [[0, 100)]. *)
Theorem move_activations_histogram (top : bool)
    (gameReports : list GameReport.t) :
  gameReports ≠ [] →
  ∃ games acts gameReports',
    selected top gameReports = (Ok games, gameReports')
    ∧ activations top gameReports = (Ok acts, gameReports')
    ∧ acts = concat (GameReport.activations <$> games)
    ∧ binnedMoveActivations top gameReports
      = (Ok (json_dumps (histogram acts)), gameReports')
    ∧ length (histogram acts) = 10
    ∧ py_sum (histogram acts) = count_in 0 100 acts.
Proof.
  intros Hne.
  destruct (selected_facts top gameReports)
    as (games & st & Hsel & _ & Hgames & _).
  exists games, (concat (GameReport.activations <$> games)), st.
  split; [done|]. split.
  { unfold activations, bind, ret. rewrite Hsel. by rewrite foldl_extend. }
  split; [done|]. split.
  { unfold binnedMoveActivations, bind, call, ret. rewrite Hsel.
    specialize (Hgames Hne). destruct games as [|g games]; [done|].
    cbn [fmap list_fmap reduce_concat]. by rewrite foldl_app_concat. }
  split; [by rewrite histogram_buckets|apply histogram_sum].
Qed.

Lemma move_activations_histogram_witness :
  ∃ acts,
    (activations false [game_three_moves; game_two_moves]).1 = Ok acts
    ∧ (binnedMoveActivations false [game_three_moves; game_two_moves]).1
      = Ok (json_dumps (histogram acts)).
Proof.
  destruct (move_activations_histogram false [game_three_moves; game_two_moves])
    as (games & acts & st & _ & Hacts & _ & Hbin & _); [discriminate|].
  exists acts. by rewrite Hacts, Hbin.
Defined.

Lemma activations_empty (top : bool) : activations top [] = (Ok [], []).
Proof. by destruct top. Qed.

End move_activations.

(** ** The histogram of one game *)

Section game_histogram.

Lemma py_int_div_10 (a : Z) : py_int (inject_Z a / 10) = Z.quot a 10.
Proof. unfold py_int. simpl. by rewrite Z.mul_1_r. Qed.

Lemma quot_10_spec (a : Z) :
  (0 ≤ a)%Z → ∃ q, Z.quot a 10 = q ∧ (0 ≤ q)%Z ∧ (10 * q ≤ a < 10 * q + 10)%Z.
Proof.
  intros Ha. exists (a / 10)%Z.
  split; [apply Z.quot_div_nonneg; lia|].
  pose proof (Z.div_mod a 10 ltac:(lia)).
  pose proof (Z.mod_pos_bound a 10 ltac:(lia)).
  split; [apply Z.div_pos; lia|lia].
Qed.

Lemma py_index_exn n k e : py_index n k = Raise e → e = IndexError.
Proof.
  unfold py_index.
  destruct (0 <=? k)%Z, (k <? Z.of_nat n)%Z, (- Z.of_nat n <=? k)%Z; congruence.
Qed.

Lemma bucket_cons lo a xs :
  bucket lo (a :: xs)
  = ((if decide (lo ≤ a < lo + 10)%Z then 1 else 0) + bucket lo xs)%Z.
Proof.
  unfold bucket. cbn [fmap list_fmap py_sum foldr]. f_equal.
  destruct (hit_cases lo (lo + 10) a) as [[Ha ->]|[Ha ->]].
  - by rewrite decide_True.
  - by rewrite decide_False.
Qed.

Lemma bin_moves_lookup (moves : list MoveReport.t) (bins : list Z) :
  length bins = 10 →
  Forall (λ m, 0 ≤ MoveReport.activation m < 100)%Z moves →
  ∃ bins',
    GameReport.bin_moves moves bins = Ok bins'
    ∧ length bins' = 10
    ∧ ∀ (j : nat) x, bins !! j = Some x →
        bins' !! j
        = Some (x + bucket (10 * Z.of_nat j) (MoveReport.activation <$> moves))%Z.
Proof.
  intros Hlen Hall. revert bins Hlen.
  induction Hall as [|m moves Hm _ IH]; intros bins Hlen.
  { exists bins. split; [done|]. split; [done|].
    intros j x Hj. rewrite Hj. f_equal. unfold bucket. simpl. lia. }
  cbn [GameReport.bin_moves]. rewrite py_int_div_10, Hlen. cbv beta in Hm.
  set (a := MoveReport.activation m) in *.
  destruct (quot_10_spec a) as (q & Hq & Hq0 & Hdec); [lia|].
  unfold py_index. rewrite Hq.
  destruct (Z.leb_spec 0 q) as [_|?]; [|lia].
  destruct (Z.ltb_spec q (Z.of_nat 10)) as [_|?]; [|lia].
  cbn [rbind].
  destruct (IH (alter Z.succ (Z.to_nat q) bins))
    as (bins' & Hbins' & Hlen' & Hlook).
  { by rewrite length_alter. }
  exists bins'. split; [done|]. split; [done|].
  intros j x Hj. cbn [fmap list_fmap]. fold a. rewrite bucket_cons.
  destruct (decide (j = Z.to_nat q)) as [->|Hne].
  - rewrite (Hlook _ (Z.succ x)).
    + rewrite decide_True by lia. f_equal. lia.
    + by rewrite list_lookup_alter_eq, Hj.
  - rewrite (Hlook _ x).
    + rewrite decide_False by lia. f_equal.
    + by rewrite list_lookup_alter_ne by done.
Qed.

(** X15: when every move activation of a game is in [[0, 100)],
    [GameReport.binnedActivations] does not raise and returns the same
    histogram as the binning of the store applied to the activations of the
    game. *)
Theorem GameReport_binnedActivations_histogram (g : GameReport.t) :
  Forall (λ m, 0 ≤ MoveReport.activation m < 100)%Z (GameReport.moves g) →
  GameReport.binnedActivations g
  = Ok (GameReportStore.histogram (GameReport.activations g)).
Proof.
  intros Hall. unfold GameReport.binnedActivations.
  destruct (bin_moves_lookup (GameReport.moves g) (replicate 10 0%Z))
    as (bins & -> & Hlen & Hlook); [done|done|].
  cbn [rbind]. f_equal. rewrite histogram_buckets.
  fold (GameReport.activations g) in Hlook.
  do 11 (destruct bins as [|? bins]; try discriminate Hlen).
  pose proof (Hlook 0 0%Z eq_refl) as H0.
  pose proof (Hlook 1 0%Z eq_refl) as H1.
  pose proof (Hlook 2 0%Z eq_refl) as H2.
  pose proof (Hlook 3 0%Z eq_refl) as H3.
  pose proof (Hlook 4 0%Z eq_refl) as H4.
  pose proof (Hlook 5 0%Z eq_refl) as H5.
  pose proof (Hlook 6 0%Z eq_refl) as H6.
  pose proof (Hlook 7 0%Z eq_refl) as H7.
  pose proof (Hlook 8 0%Z eq_refl) as H8.
  pose proof (Hlook 9 0%Z eq_refl) as H9.
  cbn [lookup list_lookup] in *. simplify_eq. reflexivity.
Qed.

Lemma GameReport_binnedActivations_histogram_witness :
  GameReport.binnedActivations game_three_moves
  = Ok (GameReportStore.histogram (GameReport.activations game_three_moves)).
Proof.
  apply (GameReport_binnedActivations_histogram game_three_moves).
  repeat (apply Forall_cons_2 || apply Forall_nil_2); simpl; lia.
Defined.

Lemma bin_moves_raises (moves : list MoveReport.t) (bins : list Z) m :
  length bins = 10 → m ∈ moves → (100 ≤ MoveReport.activation m)%Z →
  GameReport.bin_moves moves bins = Raise IndexError.
Proof.
  intros Hlen Hin Hm. revert bins Hlen.
  induction moves as [|m' moves IH]; intros bins Hlen.
  { by apply not_elem_of_nil in Hin. }
  cbn [GameReport.bin_moves].
  destruct (py_index _ _) as [i|e] eqn:Hi; cbn [rbind].
  - apply elem_of_cons in Hin as [->|Hin].
    + exfalso. revert Hi. rewrite py_int_div_10, Hlen. unfold py_index.
      destruct (quot_10_spec (MoveReport.activation m'))
        as (q & -> & Hq0 & Hdec); [lia|].
      destruct (Z.leb_spec 0 q); [|lia].
      destruct (Z.ltb_spec q (Z.of_nat 10)); [lia|done].
    + apply IH; [done|]. by rewrite length_alter.
  - by apply py_index_exn in Hi as ->.
Qed.

(** X16: a move of activation 100 or more, which [moveActivation] produces
    when both predictions are 1, makes [GameReport.binnedActivations] raise
    [IndexError], where the binning of the store leaves the value out. *)
Theorem GameReport_binnedActivations_raises (g : GameReport.t)
    (m : MoveReport.t) :
  m ∈ GameReport.moves g → (100 ≤ MoveReport.activation m)%Z →
  GameReport.binnedActivations g = Raise IndexError
  ∧ moveActivation (Arr [Num 1], Arr [Num 1]) = Ok 100%Z
  ∧ GameReportStore.histogram [100%Z] = replicate 10 0%Z.
Proof.
  intros Hin Hm. split; [|by split].
  unfold GameReport.binnedActivations.
  by rewrite (bin_moves_raises _ _ m).
Qed.

Lemma GameReport_binnedActivations_raises_witness :
  GameReport.binnedActivations (sample_game "i" 90 [sample_move 100 0])
  = Raise IndexError.
Proof.
  apply (GameReport_binnedActivations_raises
           (sample_game "i" 90 [sample_move 100 0]) (sample_move 100 0)).
  - apply list_elem_of_here.
  - vm_compute. discriminate.
Defined.

(** X17: for an activation in [[0, 100]] the colour index is the number of
    the decile that holds it, between 0 and 10, and 10 only for 100; below
    100 the game is counted at output index [9 - colorIndex] of the
    histogram. *)
Theorem colorIndex_decile (g : GameReport.t) :
  (0 ≤ GameReport.activation g ≤ 100)%Z →
  let c := GameReport.colorIndex g in
  (0 ≤ c ≤ 10)%Z
  ∧ (10 * c ≤ GameReport.activation g < 10 * c + 10)%Z
  ∧ (c = 10 ↔ GameReport.activation g = 100)%Z
  ∧ (GameReport.activation g < 100 →
     GameReportStore.histogram [GameReport.activation g]
       !! Z.to_nat (9 - c) = Some 1)%Z.
Proof.
  intros Ha c. subst c. unfold GameReport.colorIndex.
  rewrite py_int_div_10.
  set (a := GameReport.activation g) in *.
  destruct (quot_10_spec a) as (q & -> & Hq0 & Hdec); [lia|].
  split; [lia|]. split; [lia|]. split; [lia|].
  intros Hlt. rewrite histogram_buckets.
  assert (∃ k : nat, k < 10 ∧ q = Z.of_nat k) as (k & Hk & ->).
  { exists (Z.to_nat q). lia. }
  do 10 (destruct k as [|k];
         [cbn [Z.to_nat Z.sub Z.of_nat lookup list_lookup] in *; simpl;
          rewrite bucket_cons, decide_True by lia; done|]).
  lia.
Qed.

Lemma colorIndex_decile_witness :
  (0 ≤ GameReport.colorIndex game95 ≤ 10)%Z.
Proof. apply (colorIndex_decile game95). simpl. lia. Defined.

End game_histogram.

(** ** More on the report builder *)

Section builder_more.
Import GameReportStore.




(** X19: [GameReport.new] raises on predictions that lack the positions it
    reads: [IndexError] when [gamePredictions] is empty or its first entry
    has no entry of index 1, [TypeError] when either is a bare number. *)
Theorem new_malformed_predictions (analysedGame : AnalysedGame.t)
    (gameActivation : Z) (reportId userId : string) :
  GameReport.new analysedGame gameActivation (Arr []) reportId userId
  = Raise IndexError
  ∧ (∀ x, GameReport.new analysedGame gameActivation (Num x) reportId userId
          = Raise TypeError)
  ∧ (∀ x rest,
       GameReport.new analysedGame gameActivation (Arr (Num x :: rest))
         reportId userId = Raise TypeError)
  ∧ (∀ gp rest, length gp ≤ 1 →
       GameReport.new analysedGame gameActivation (Arr (Arr gp :: rest))
         reportId userId = Raise IndexError).
Proof.
  split; [done|]. split; [done|]. split; [done|].
  intros gp rest Hgp. destruct gp as [|t [|t' gp]]; [done|done|].
  simpl in Hgp. lia.
Qed.

(** X20: when the analysed game has no move, or either list of predictions
    is empty, [GameReport.new] returns a game without moves; the loss series
    of such a game raises [IndexError], and so does [averageLossByMove] on a
    collection that holds it beside a game with moves. *)
Theorem new_without_moves (analysedGame : AnalysedGame.t)
    (gameActivation : Z) (pa pb : list Q) (reportId userId : string) :
  AnalysedGame.analysedMoves analysedGame = [] ∨ pa = [] ∨ pb = [] →
  ∃ g,
    GameReport.new analysedGame gameActivation (predictions_tensor pa pb)
      reportId userId = Ok g
    ∧ GameReport.moves g = []
    ∧ GameReport.losses g = Raise IndexError
    ∧ ∀ g', GameReport.moves g' ≠ [] →
        averageLossByMove false [g'; g] = (Raise IndexError, [g'; g]).
Proof.
  intros Hempty.
  set (g := GameReport.mk
              (AnalysedGame.gameId analysedGame +:+ "/" +:+ reportId) reportId
              (AnalysedGame.gameId analysedGame) gameActivation
              (zip_with built_move (AnalysedGame.analysedMoves analysedGame)
                 (zip pa pb))).
  exists g. split.
  { unfold GameReport.new, predictions_tensor.
    cbn [item getitem lookup list_lookup rbind].
    rewrite movePredictions_tensor. cbn [rbind].
    by rewrite comprehension_new. }
  cbn [GameReport.moves g].
  assert (zip_with built_move (AnalysedGame.analysedMoves analysedGame)
            (zip pa pb) = []) as Hnil.
  { destruct Hempty as [->|[->| ->]]; [done| |].
    - by destruct (AnalysedGame.analysedMoves analysedGame).
    - destruct (AnalysedGame.analysedMoves analysedGame), pa; done. }
  split; [done|]. split; [by apply GameReport_losses_nil|].
  intros g' Hg'. unfold averageLossByMove, bind.
  rewrite longestGame_eq.
  rewrite decide_False.
  - unfold losses, bind, selected, self_gameReports, call.
    rewrite (comprehension_losses_raises [g'; g] g);
      [done|apply list_elem_of_further, list_elem_of_here|done].
  - apply (longestGame_pos _ g'); [apply list_elem_of_here|done].
Qed.

Lemma new_without_moves_witness :
  ∃ g,
    GameReport.new analysed_two_moves 50 (predictions_tensor [] [4 # 5])
      "r" "u" = Ok g
    ∧ GameReport.moves g = []
    ∧ GameReport.losses g = Raise IndexError.
Proof.
  destruct (new_without_moves analysed_two_moves 50 [] [4 # 5] "r" "u")
    as (g & Hg & Hm & Hl & _); [right; left; reflexivity|].
  exists g. split; [exact Hg|]. split; [exact Hm|exact Hl].
Defined.

End builder_more.

(** ** Player reports *)

Section player_report.

Lemma hex_digit_in (d : N) : hex_digit d ∈ hex_chars.
Proof.
  unfold hex_digit.
  destruct (nth_in_or_default (N.to_nat d) hex_chars "0"%char) as [Hin| ->].
  - by apply list_elem_of_In.
  - apply list_elem_of_here.
Qed.

Lemma digit_val_hex_digit (d : N) : (d < 16)%N → digit_val (hex_digit d) = d.
Proof.
  intros Hd. rewrite <- (N2Nat.id d). set (k := N.to_nat d).
  assert (k < 16) as Hk by lia. clearbody k.
  do 16 (destruct k as [|k]; [reflexivity|]). lia.
Qed.

Lemma hex_rev_in fuel n c : c ∈ hex_rev fuel n → c ∈ hex_chars.
Proof.
  revert n. induction fuel as [|fuel IH]; intros n; simpl.
  { by intros ?%not_elem_of_nil. }
  intros [->|Hin]%elem_of_cons; [apply hex_digit_in|].
  destruct (n <? 16)%N; [by apply not_elem_of_nil in Hin|by eapply IH].
Qed.

Lemma hex_rev_length fuel n k :
  (n < 16 ^ N.of_nat (S k))%N → length (hex_rev fuel n) ≤ S k.
Proof.
  revert n k. induction fuel as [|fuel IH]; intros n k Hn; simpl; [lia|].
  destruct (N.ltb_spec n 16) as [|Hge]; simpl; [lia|].
  destruct k as [|k].
  { change (16 ^ N.of_nat 1)%N with 16%N in Hn. lia. }
  apply le_n_S, IH.
  apply N.Div0.div_lt_upper_bound.
  replace (N.of_nat (S (S k))) with (N.succ (N.of_nat (S k))) in Hn by lia.
  by rewrite N.pow_succ_r' in Hn.
Qed.

Lemma hex_val_rev_hex_rev fuel n :
  (n < 16 ^ N.of_nat fuel)%N → hex_val_rev (hex_rev fuel n) = n.
Proof.
  revert n. induction fuel as [|fuel IH]; intros n Hn.
  { change (16 ^ N.of_nat 0)%N with 1%N in Hn. simpl. lia. }
  cbn [hex_rev hex_val_rev foldr].
  rewrite digit_val_hex_digit by (apply N.mod_lt; lia).
  destruct (N.ltb_spec n 16) as [Hlt|Hge].
  - cbn [foldr]. rewrite N.mod_small by done. lia.
  - fold (hex_val_rev (hex_rev fuel (n / 16))). rewrite IH.
    + pose proof (N.div_mod' n 16). lia.
    + apply N.Div0.div_lt_upper_bound.
      replace (N.of_nat (S fuel)) with (N.succ (N.of_nat fuel)) in Hn by lia.
      by rewrite N.pow_succ_r' in Hn.
Qed.

Lemma hex_fuel (n : N) : (n < 16 ^ N.of_nat (S (N.to_nat (N.log2 n))))%N.
Proof.
  replace (N.of_nat (S (N.to_nat (N.log2 n)))) with (N.succ (N.log2 n)) by lia.
  destruct (N.eq_dec n 0%N) as [->|Hn]; [done|].
  destruct (N.log2_spec n) as [_ Hlt]; [lia|].
  eapply N.lt_le_trans; [exact Hlt|]. apply N.pow_le_mono_l. lia.
Qed.

Lemma hex_val_rev_zeros l k :
  hex_val_rev (l ++ replicate k "0"%char) = hex_val_rev l.
Proof.
  unfold hex_val_rev. induction l as [|c l IH]; cbn [app foldr].
  - induction k as [|k IHk]; [done|]. cbn [replicate foldr]. by rewrite IHk.
  - by rewrite IH.
Qed.

Lemma hex_val_format (n : N) : hex_val (format_016x n) = n.
Proof.
  unfold hex_val, format_016x, hex.
  rewrite String.list_ascii_of_string_of_list_ascii.
  rewrite reverse_app, reverse_involutive, reverse_replicate.
  rewrite hex_val_rev_zeros. apply hex_val_rev_hex_rev, hex_fuel.
Qed.

Lemma string_of_list_length (l : list ascii) :
  String.length (String.string_of_list_ascii l) = length l.
Proof. induction l as [|c l IH]; simpl; [done|]. by rewrite IH. Qed.

(** X21: the id of a new player report is a string of exactly 16 lower-case
    hexadecimal digits whose value is the 64 random bits drawn, so that two
    different draws give two different ids. *)
Theorem PlayerReport_new_id (randbits : N) (now : Z) (userId owner : string)
    (activation : Q) :
  (randbits < 2 ^ 64)%N →
  let r := PlayerReport.new randbits now userId owner activation in
  String.length (PlayerReport.id r) = 16
  ∧ Forall (λ c, c ∈ hex_chars) (String.list_ascii_of_string (PlayerReport.id r))
  ∧ hex_val (PlayerReport.id r) = randbits
  ∧ ∀ randbits' now' userId' owner' activation',
      PlayerReport.id
        (PlayerReport.new randbits' now' userId' owner' activation')
      = PlayerReport.id r →
      randbits' = randbits.
Proof.
  intros Hbits r. subst r. cbn [PlayerReport.new PlayerReport.id].
  split; [|split; [|split]].
  - unfold format_016x. rewrite string_of_list_length, length_app.
    rewrite length_replicate.
    assert (length (hex randbits) ≤ 16); [|lia].
    unfold hex. rewrite length_reverse. apply hex_rev_length.
    by change (16 ^ N.of_nat 16)%N with (2 ^ 64)%N.
  - unfold format_016x. rewrite String.list_ascii_of_string_of_list_ascii.
    apply Forall_app. split.
    + apply Forall_forall. intros c ->%elem_of_replicate_inv.
      apply list_elem_of_here.
    + apply Forall_forall. unfold hex. intros c Hc.
      rewrite elem_of_reverse in Hc. eapply hex_rev_in, Hc.
  - apply hex_val_format.
  - intros n' _ _ _ _ Heq.
    by rewrite <- (hex_val_format n'), Heq, hex_val_format.
Qed.

Lemma PlayerReport_new_id_witness :
  PlayerReport.id (PlayerReport.new 255 0 "u" "o" 1) = "00000000000000ff"
  ∧ String.length (PlayerReport.id (PlayerReport.new 255 0 "u" "o" 1)) = 16.
Proof.
  split; [reflexivity|].
  apply (PlayerReport_new_id 255 0 "u" "o" 1). reflexivity.
Defined.

(** X22: reading back what [writes] produced for a player report gives the
    report itself. *)
Theorem PlayerReport_round_trip (r : PlayerReport.t) :
  PlayerReportBSONHandler.reads (PlayerReportBSONHandler.writes r) = Ok r.
Proof. by destruct r. Qed.

End player_report.

(** ** Persisted documents and the stores *)

Section stores.

Lemma GameReport_reads_agree (d : gmap string bson) (g : GameReport.t) :
  (∀ key, key ∈ game_keys → d !! key = GameReportBSONHandler.writes g !! key) →
  GameReportBSONHandler.reads d = Ok g.
Proof.
  intros Hd.
  assert (∀ key, key ∈ game_keys →
            field d key = field (GameReportBSONHandler.writes g) key) as Hf.
  { intros key Hkey. unfold field. by rewrite Hd. }
  destruct g as [id rid gid act ms].
  unfold GameReportBSONHandler.reads.
  rewrite !Hf by (unfold game_keys; set_solver).
  unfold GameReportBSONHandler.writes, field.
  cbn [GameReport.id GameReport.reportId GameReport.gameId
       GameReport.activation GameReport.moves].
  repeat (rewrite lookup_insert_eq || rewrite lookup_insert_ne by done).
  cbn [rbind as_str as_int as_list]. by rewrite moves_round_trip.
Qed.

(** X23: [GameReportBSONHandler.reads] looks at its five fields only: any
    document that holds what [writes] stored under these keys reads back as
    the game, whatever else it holds; such are the written document with a
    field added and the written fields laid over an older document. *)
Theorem reads_ignores_other_fields (g : GameReport.t) (d : gmap string bson) :
  (∀ key, key ∈ game_keys → d !! key = GameReportBSONHandler.writes g !! key) →
  GameReportBSONHandler.reads d = Ok g
  ∧ (∀ key v, key ∉ game_keys →
       GameReportBSONHandler.reads (<[key := v]> d) = Ok g)
  ∧ ∀ old, GameReportBSONHandler.reads
             (GameReportBSONHandler.writes g ∪ old) = Ok g.
Proof.
  intros Hd. split; [by apply GameReport_reads_agree|]. split.
  - intros key v Hkey. apply GameReport_reads_agree. intros key' Hkey'.
    rewrite lookup_insert_ne; [by apply Hd|]. by intros ->.
  - intros old. apply GameReport_reads_agree. intros key Hkey.
    destruct (GameReportBSONHandler.writes g !! key) as [v|] eqn:Hv.
    + by apply lookup_union_Some_l.
    + exfalso. revert Hv. unfold GameReportBSONHandler.writes, game_keys in *.
      repeat (apply elem_of_cons in Hkey as [->|Hkey];
              [by repeat (rewrite lookup_insert_eq
                          || rewrite lookup_insert_ne by done)|]).
      by apply not_elem_of_nil in Hkey.
Qed.

Lemma reads_ignores_other_fields_witness :
  GameReportBSONHandler.reads
    (<["stale" := BNull]> (GameReportBSONHandler.writes game10))
  = Ok game10.
Proof.
  apply (reads_ignores_other_fields game10
           (GameReportBSONHandler.writes game10)).
  - intros key _. reflexivity.
  - unfold game_keys. intros Hin.
    repeat (apply elem_of_cons in Hin as [Heq|Hin]; [discriminate Heq|]).
    by apply not_elem_of_nil in Hin.
Defined.

(** X24: a document that lacks one of the five fields makes
    [GameReportBSONHandler.reads] raise [KeyError]; so does a move document
    without its rank field. *)
Theorem reads_missing_field (g : GameReport.t) (m : MoveReport.t)
    (key : string) :
  key ∈ game_keys →
  GameReportBSONHandler.reads (delete key (GameReportBSONHandler.writes g))
  = Raise KeyError
  ∧ MoveReportBSONHandler.reads (delete "r" (MoveReportBSONHandler.writes m))
    = Raise KeyError
  ∧ GameReportBSONHandler.reads ∅ = Raise KeyError.
Proof.
  intros Hkey. split; [|by split].
  destruct g as [id rid gid act ms].
  unfold game_keys in Hkey.
  repeat (apply elem_of_cons in Hkey as [->|Hkey]; [reflexivity|]).
  by apply not_elem_of_nil in Hkey.
Qed.

Lemma reads_missing_field_witness :
  GameReportBSONHandler.reads
    (delete "moves" (GameReportBSONHandler.writes game10))
  = Raise KeyError.
Proof.
  apply (reads_missing_field game10 (sample_move 0 0) "moves").
  unfold game_keys. do 4 apply list_elem_of_further. apply list_elem_of_here.
Defined.

Lemma writes_has_keys (g : GameReport.t) (key : string) :
  key ∈ game_keys → is_Some (GameReportBSONHandler.writes g !! key).
Proof.
  unfold GameReportBSONHandler.writes, game_keys. intros Hkey.
  repeat (apply elem_of_cons in Hkey as [->|Hkey];
          [by repeat (rewrite lookup_insert_eq
                      || rewrite lookup_insert_ne by done)|]).
  by apply not_elem_of_nil in Hkey.
Qed.

Lemma reads_fields_union (g : GameReport.t) (old : gmap string bson) :
  GameReportBSONHandler.reads (GameReportBSONHandler.writes g ∪ old) = Ok g.
Proof.
  apply GameReport_reads_agree. intros key Hkey.
  destruct (writes_has_keys g key Hkey) as [v Hv]. rewrite Hv.
  by apply lookup_union_Some_l.
Qed.

Lemma writes_id_field (g : GameReport.t) :
  GameReportBSONHandler.writes g !! "_id" = Some (BStr (GameReport.id g)).
Proof. done. Qed.

Lemma GameReportDB_write_lookup (g : GameReport.t)
    (coll : gmap string (gmap string bson)) :
  ∃ old, GameReportDB.write g coll
         = <[GameReport.id g := GameReportBSONHandler.writes g ∪ old]> coll.
Proof.
  unfold GameReportDB.write, update_one.
  destruct (coll !! GameReport.id g) as [doc|]; eauto.
Qed.

Lemma GameReportDB_write_same (g : GameReport.t)
    (coll : gmap string (gmap string bson)) :
  GameReportDB.byId (GameReportDB.write g coll) (GameReport.id g) = Ok (Some g).
Proof.
  destruct (GameReportDB_write_lookup g coll) as [old ->].
  unfold GameReportDB.byId, find_one. rewrite lookup_insert_eq.
  by rewrite reads_fields_union.
Qed.

Lemma GameReportDB_write_other (g : GameReport.t)
    (coll : gmap string (gmap string bson)) (id : string) :
  id ≠ GameReport.id g →
  GameReportDB.byId (GameReportDB.write g coll) id = GameReportDB.byId coll id.
Proof.
  intros Hne. destruct (GameReportDB_write_lookup g coll) as [old ->].
  unfold GameReportDB.byId, find_one. by rewrite lookup_insert_ne.
Qed.

(** X25: after [GameReportDB.write] of a game, [byId] with its id returns
    the game, whatever was stored under that id before, and returns what it
    returned before for every other id; writing the same game again changes
    nothing; an id that was never written gives [None]. *)
Theorem GameReportDB_write_byId (g : GameReport.t)
    (coll : gmap string (gmap string bson)) :
  GameReportDB.byId (GameReportDB.write g coll) (GameReport.id g) = Ok (Some g)
  ∧ (∀ id, id ≠ GameReport.id g →
       GameReportDB.byId (GameReportDB.write g coll) id
       = GameReportDB.byId coll id)
  ∧ GameReportDB.write g (GameReportDB.write g coll) = GameReportDB.write g coll
  ∧ ∀ id, GameReportDB.byId ∅ id = Ok None.
Proof.
  split; [apply GameReportDB_write_same|].
  split; [intros id; apply GameReportDB_write_other|]. split; [|done].
  destruct (GameReportDB_write_lookup g coll) as [old Hw]. rewrite Hw.
  unfold GameReportDB.write at 1, update_one. rewrite lookup_insert_eq.
  rewrite insert_insert_eq. f_equal.
  by rewrite (assoc_L (∪)), (idemp_L (∪)).
Qed.

(** X26: after [writeMany] of games with pairwise different ids, [byId]
    returns each of them, and what it returned before for the ids of none of
    them. *)
Theorem GameReportDB_writeMany_byId (gameReports : list GameReport.t)
    (coll : gmap string (gmap string bson)) :
  NoDup (GameReport.id <$> gameReports) →
  (∀ g, g ∈ gameReports →
     GameReportDB.byId (GameReportDB.writeMany gameReports coll)
       (GameReport.id g) = Ok (Some g))
  ∧ ∀ id, id ∉ GameReport.id <$> gameReports →
      GameReportDB.byId (GameReportDB.writeMany gameReports coll) id
      = GameReportDB.byId coll id.
Proof.
  intros Hnodup.
  assert (∀ gs coll id, id ∉ GameReport.id <$> gs →
            GameReportDB.byId (GameReportDB.writeMany gs coll) id
            = GameReportDB.byId coll id) as Hother.
  { clear. induction gs as [|g gs IH]; intros coll id Hid; [done|].
    cbn [fmap list_fmap] in Hid. apply not_elem_of_cons in Hid as [Hne Hid].
    unfold GameReportDB.writeMany. cbn [foldl].
    fold (GameReportDB.writeMany gs (GameReportDB.write g coll)).
    rewrite IH by done. by apply GameReportDB_write_other. }
  split; [|apply Hother].
  revert coll. induction gameReports as [|g0 gs IH]; intros coll g Hg.
  { by apply not_elem_of_nil in Hg. }
  cbn [fmap list_fmap] in Hnodup. apply NoDup_cons in Hnodup as [Hfresh Hnodup].
  unfold GameReportDB.writeMany. cbn [foldl].
  fold (GameReportDB.writeMany gs (GameReportDB.write g0 coll)).
  apply elem_of_cons in Hg as [->|Hg].
  - rewrite Hother by done. apply GameReportDB_write_same.
  - by apply IH.
Qed.

Lemma GameReportDB_writeMany_byId_witness :
  GameReportDB.byId (GameReportDB.writeMany [game10; game5] ∅)
    (GameReport.id game5) = Ok (Some game5).
Proof.
  apply (GameReportDB_writeMany_byId [game10; game5] ∅).
  - apply NoDup_cons_2; [|apply NoDup_singleton].
    intros Hin. apply list_elem_of_singleton in Hin. discriminate Hin.
  - apply list_elem_of_further, list_elem_of_here.
Defined.

(** X27: after [PlayerReportDB.write] of a report, [byId] with its id
    returns the report, whatever was stored under that id before, and
    returns what it returned before for every other id. *)
Theorem PlayerReportDB_write_byId (r : PlayerReport.t)
    (coll : gmap string (gmap string bson)) :
  PlayerReportDB.byId (PlayerReportDB.write r coll) (PlayerReport.id r)
  = Ok (Some r)
  ∧ ∀ id, id ≠ PlayerReport.id r →
      PlayerReportDB.byId (PlayerReportDB.write r coll) id
      = PlayerReportDB.byId coll id.
Proof.
  assert (∃ old, PlayerReportDB.write r coll
                 = <[PlayerReport.id r
                     := PlayerReportBSONHandler.writes r ∪ old]> coll)
    as [old ->].
  { unfold PlayerReportDB.write, update_one.
    destruct (coll !! PlayerReport.id r); eauto. }
  unfold PlayerReportDB.byId, find_one. split.
  - rewrite lookup_insert_eq. destruct r as [id uid own act date].
    unfold PlayerReportBSONHandler.reads, PlayerReportBSONHandler.writes, field.
    cbn [PlayerReport.id PlayerReport.userId PlayerReport.owner
         PlayerReport.activation PlayerReport.date].
    repeat (erewrite lookup_union_Some_l;
            [|by repeat (rewrite lookup_insert_eq
                         || rewrite lookup_insert_ne by done)]).
    done.
  - intros id Hne. by rewrite lookup_insert_ne.
Qed.

End stores.

(** ** Report dictionaries *)

Section report_dict.

Lemma reportDict_moves_round_trip (ms : list MoveReport.t) :
  comprehension (λ d, rbind (as_doc d) MoveReportBSONHandler.reads)
    ((λ move, BDoc (MoveReport_reportDict move)) <$> ms)
  = Ok ms.
Proof. exact (moves_round_trip ms). Qed.

(** X28: the dictionary of a player report lists one dictionary per game
    report, in their order, each with the game id, the activation and the
    moves of the game; the moves read back from it with
    [MoveReportBSONHandler.reads] are the moves of the game, while the game
    dictionary itself, which has no ["_id"], is not a document that
    [GameReportBSONHandler.reads] accepts. *)
Theorem reportDict_games (self : PlayerReport.t)
    (gameReports : list GameReport.t) :
  ∃ games,
    PlayerReport_reportDict self gameReports !! "games" = Some (BList games)
    ∧ PlayerReport_reportDict self gameReports !! "activation"
      = Some (BInt (py_int (PlayerReport.activation self)))
    ∧ Forall2 (λ g d,
        ∃ ms,
          d = BDoc (GameReport_reportDict g)
          ∧ GameReport_reportDict g !! "gameId"
            = Some (BStr (GameReport.gameId g))
          ∧ GameReport_reportDict g !! "activation"
            = Some (BInt (GameReport.activation g))
          ∧ GameReport_reportDict g !! "moves" = Some (BList ms)
          ∧ comprehension (λ d, rbind (as_doc d) MoveReportBSONHandler.reads) ms
            = Ok (GameReport.moves g)
          ∧ GameReportBSONHandler.reads (GameReport_reportDict g)
            = Raise KeyError)
        gameReports games.
Proof.
  eexists. split; [done|]. split; [done|].
  apply Forall2_fmap_r, Forall_Forall2_diag, Forall_forall. intros g _.
  eexists. split; [done|]. split; [done|]. split; [done|]. split; [done|].
  split; [apply reportDict_moves_round_trip|done].
Qed.

End report_dict.
